(** * CHERIoT RTOS locks ([sdk/include/locks.hh])

    A shallow embedding of [FlagLock], [TicketLock], [NoLock] and
  [LockGuard].  Every method is written as a computation of one thread
  over the words of the lock object.  The other threads of the system
  are an explicit schedule: before each atomic operation of the modelled
  thread the schedule may leave the words at any value, and for each
  blocking wait it says whether and when a wake arrives. *)

From Stdlib Require Import ZArith NArith List Bool String Lia.
Import ListNotations.
Local Open Scope Z_scope.

Set Implicit Arguments.

(** ** Outcomes and the method monad *)

(** What a call of a method comes to. *)
Inductive Res (A : Type) : Type :=
| Done (a : A)   (* the call returned [a] *)
| Blocked        (* the thread sleeps in the word-wait primitive for ever *)
| Trap           (* a debug assertion aborted, or a null reference was used *)
| OutOfFuel.     (* the loop bound of the model was reached *)

Arguments Blocked {A}.
Arguments Trap {A}.
Arguments OutOfFuel {A}.

(** One entry of the schedule, consumed by one atomic operation of the
    modelled thread: [others] is the value at which the other threads left
    the lock object since the previous operation ([None]: untouched);
    [wake] matters when the operation is a wait that blocks ([None]: no
    wake ever arrives; [Some t]: a wake arrives after [t] ticks). *)
Record EnvStep (Sh : Type) : Type := {
  others : option Sh;
  wake : option N
}.

(** The lock object [mem], the rest of the schedule [env] (an empty
    schedule is a system with no other thread), and the atomic operations
    performed so far, oldest first. *)
Record World (Sh Ev : Type) : Type := {
  mem : Sh;
  env : list (EnvStep Sh);
  log : list Ev
}.

Definition M (Sh Ev A : Type) : Type := World Sh Ev -> Res A * World Sh Ev.

Definition ret {Sh Ev A} (a : A) : M Sh Ev A := fun w => (Done a, w).

Definition bind {Sh Ev A B} (m : M Sh Ev A) (k : A -> M Sh Ev B) : M Sh Ev B :=
  fun w =>
    match m w with
    | (Done a, w') => k a w'
    | (Blocked, w') => (Blocked, w')
    | (Trap, w') => (Trap, w')
    | (OutOfFuel, w') => (OutOfFuel, w')
    end.

Declare Scope lock_scope.
Delimit Scope lock_scope with lock.
Notation "x <- m ;; k" := (bind m (fun x => k))
  (at level 61, m at next level, right associativity) : lock_scope.
Notation "' p <- m ;; k" := (bind m (fun x => match x with p => k end))
  (at level 61, p pattern, m at next level, right associativity) : lock_scope.
Notation "m ;; k" := (bind m (fun _ => k))
  (at level 61, right associativity) : lock_scope.
Local Open Scope lock_scope.

Definition block {Sh Ev A} : M Sh Ev A := fun w => (Blocked, w).
Definition trap {Sh Ev A} : M Sh Ev A := fun w => (Trap, w).
Definition out_of_fuel {Sh Ev A} : M Sh Ev A := fun w => (OutOfFuel, w).

(** ** The timeout cursor *)

(** Modelled from the spec: [Timeout] and [UnlimitedTimeout] are declared
    outside [locks.hh].  The cursor exposes a [remaining] budget; a budget
    that is not greater than zero means "do not block"; the unlimited
    value is a distinguished budget that never reports exhaustion (here
    the largest 32-bit tick count). *)
Record Timeout : Type := { remaining : Z }.

Definition UnlimitedTimeout : Z := 2 ^ 32 - 1.

(** Modelled from the spec: the word-wait primitive consumes the budget as
    time passes, saturating at zero, and leaves an unlimited budget
    alone. *)
Definition elapse (t : N) (timeout : Timeout) : Timeout :=
  if remaining timeout =? UnlimitedTimeout then timeout
  else {| remaining := Z.min (remaining timeout)
                             (Z.max 0 (remaining timeout - Z.of_N t)) |}.

(** ** Atomic words ([cheriot::atomic<T>]) *)

(** Decidable equality on the values of a word. *)
Class Word (T : Type) : Type := {
  weqb : T -> T -> bool;
  weqb_eq : forall x y, weqb x y = true <-> x = y
}.

(** An atomic member of a lock object: its name and how it is read and
    written inside the object. *)
Record Cell (Sh T : Type) : Type := {
  cell_name : string;
  get : Sh -> T;
  set : T -> Sh -> Sh
}.

(** The atomic operations a thread performs, as they appear in the log. *)
Inductive Event (T : Type) : Type :=
| EvLoad (c : string) (value : T)
| EvCas (c : string) (expected desired observed : T)
| EvExchange (c : string) (desired previous : T)
| EvFetchAdd (c : string) (previous updated : T)
| EvWait (c : string) (expected observed : T) (timeout : option Timeout)
| EvNotifyAll (c : string).

Arguments EvNotifyAll {T} c.

(** Does the operation store to its word? *)
Definition stores {T} `{Word T} (e : Event T) : bool :=
  match e with
  | EvCas _ expected _ observed => weqb observed expected
  | EvExchange _ _ _ | EvFetchAdd _ _ _ => true
  | EvLoad _ _ | EvWait _ _ _ _ | EvNotifyAll _ => false
  end.

(** Is the operation a call of the word-wait primitive? *)
Definition is_wait {T} (e : Event T) : bool :=
  match e with
  | EvWait _ _ _ _ => true
  | _ => false
  end.

(** The world after one atomic operation that leaves [m] in memory and
    [e] in the log. *)
Definition after {Sh T} (w : World Sh (Event T)) (m : Sh) (e : Event T)
  : World Sh (Event T) :=
  {| mem := m; env := tl (env w); log := log w ++ [e] |}.

(** [w'] is [w] after more operations of the thread: the log only grows. *)
Definition extends {Sh Ev} (w w' : World Sh Ev) : Prop :=
  exists evs, log w' = log w ++ evs.

(** Whether and when a wake arrives for the next operation of the
    thread, should it be a wait that blocks: the [wake] of the head of
    the schedule, none with no other thread. *)
Definition wake_due {Sh Ev} (w : World Sh Ev) : option N :=
  match env w with
  | [] => None
  | s :: _ => wake s
  end.

(** The operations logged in [w'] after those of [w]. *)
Definition events_since {Sh Ev} (w w' : World Sh Ev) : list Ev :=
  skipn (List.length (log w)) (log w').

Section Atomic.
Context {Sh T : Type} `{Word T}.

(** The memory as the next atomic operation will find it. *)
Definition seen (w : World Sh (Event T)) : Sh :=
  match env w with
  | [] => mem w
  | s :: _ => match others s with Some m => m | None => mem w end
  end.

(** Let the other threads run up to the next atomic operation. *)
Definition schedule : M Sh (Event T) (option N) := fun w =>
  (Done match env w with [] => None | s :: _ => wake s end,
   {| mem := seen w; env := tl (env w); log := log w |}).

Definition read (c : Cell Sh T) : M Sh (Event T) T := fun w => (Done (get c (mem w)), w).

Definition store (c : Cell Sh T) (v : T) : M Sh (Event T) unit := fun w =>
  (Done tt, {| mem := set c v (mem w); env := env w; log := log w |}).

Definition emit (e : Event T) : M Sh (Event T) unit := fun w =>
  (Done tt, {| mem := mem w; env := env w; log := log w ++ [e] |}).

(** [T load()], also the implicit conversion of an atomic to [T]. *)
Definition load (c : Cell Sh T) : M Sh (Event T) T :=
  _ <- schedule ;;
  v <- read c ;;
  emit (EvLoad (cell_name c) v) ;;
  ret v.

(** [compare_exchange_strong(expected, desired)]: the pair returned is
    the success flag and the value left in the [expected] reference. *)
Definition compare_exchange_strong (c : Cell Sh T) (expected desired : T)
  : M Sh (Event T) (bool * T) :=
  _ <- schedule ;;
  observed <- read c ;;
  emit (EvCas (cell_name c) expected desired observed) ;;
  if weqb observed expected
  then store c desired ;; ret (true, expected)
  else ret (false, observed).

(** [exchange(desired)] returns the previous value. *)
Definition exchange (c : Cell Sh T) (desired : T) : M Sh (Event T) T :=
  _ <- schedule ;;
  previous <- read c ;;
  emit (EvExchange (cell_name c) desired previous) ;;
  store c desired ;;
  ret previous.

(** Atomic read-modify-write with [f]; returns the value before and the
    value after. *)
Definition fetch_update (c : Cell Sh T) (f : T -> T) : M Sh (Event T) (T * T) :=
  _ <- schedule ;;
  previous <- read c ;;
  emit (EvFetchAdd (cell_name c) previous (f previous)) ;;
  store c (f previous) ;;
  ret (previous, f previous).

(** Modelled from the spec: the word-wait primitive of [futex.h].  The
    thread blocks if and only if the word equals [expected] at the
    moment of the call, until a wake on the word arrives or the budget
    of the cursor is used up; with no cursor, or an unlimited one, and
    no wake, it never returns. *)
Definition futex_wait (c : Cell Sh T) (timeout : option Timeout) (expected : T)
  : M Sh (Event T) (option Timeout) :=
  wk <- schedule ;;
  observed <- read c ;;
  emit (EvWait (cell_name c) expected observed timeout) ;;
  if weqb observed expected
  then match wk, timeout with
       | Some t, Some tmo => ret (Some (elapse t tmo))
       | Some _, None => ret None
       | None, Some tmo =>
           if remaining tmo =? UnlimitedTimeout then block
           else ret (Some (elapse (Z.to_N (remaining tmo)) tmo))
       | None, None => block
       end
  else ret timeout.

(** [wait(timeout, expected)]. *)
Definition wait_until (c : Cell Sh T) (timeout : Timeout) (expected : T)
  : M Sh (Event T) Timeout :=
  r <- futex_wait c (Some timeout) expected ;;
  ret match r with Some t => t | None => timeout end.

(** [wait(expected)]: no timeout. *)
Definition wait (c : Cell Sh T) (expected : T) : M Sh (Event T) unit :=
  _ <- futex_wait c None expected ;; ret tt.

(** [notify_all()]. *)
Definition notify_all (c : Cell Sh T) : M Sh (Event T) unit :=
  _ <- schedule ;;
  emit (EvNotifyAll (cell_name c)).
End Atomic.

(** ** Debug assertions ([debug.hh]) *)

(** [DebugLocks] is the build-time switch of [locks.hh]: [DEBUG_LOCKS]
    when defined, [false] otherwise.  Modelled from the spec: with the
    switch off [LockDebug::Assert] is compiled out, with it on a failed
    assertion aborts.  [LockDebug::log] only prints and is not modelled. *)
Definition Assert {Sh Ev} (DebugLocks : bool) (condition : bool) : M Sh Ev unit :=
  if DebugLocks && negb condition then trap else ret tt.

(** ** FlagLock *)

Module FlagLock.

(** [enum Flag : uint32_t], the states of the futex word. *)
Inductive Flag : Type :=
  | Unlocked            (* the lock is not held *)
  | Locked              (* the lock is held *)
  | LockedWithWaiters.  (* the lock is held and threads wait for it *)

Definition flag_eqb (a b : Flag) : bool :=
  match a, b with
  | Unlocked, Unlocked | Locked, Locked
  | LockedWithWaiters, LockedWithWaiters => true
  | _, _ => false
  end.

Lemma flag_eqb_eq (a b : Flag) : flag_eqb a b = true <-> a = b.
Proof. destruct a, b; simpl; split; congruence. Qed.

#[export] Instance Word_Flag : Word Flag :=
  {| weqb := flag_eqb; weqb_eq := flag_eqb_eq |}.

(** The object: the lock word, initially [Flag::Unlocked]. *)
Record t : Type := { flag_value : Flag }.

Definition init : t := {| flag_value := Unlocked |}.

Definition flag : Cell t Flag :=
  {| cell_name := "flag"%string;
     get := flag_value;
     set := fun v _ => {| flag_value := v |} |}.

Section Methods.
Variable DebugLocks : bool.

(** The [while (timeout->remaining > 0)] loop of [try_lock(Timeout *timeout)];
    [old] is the local of that name, the result carries the cursor as
    the call leaves it. *)
Fixpoint try_lock_loop (fuel : nat) (old : Flag) (timeout : Timeout)
  : M t (Event Flag) (bool * Timeout) :=
  if remaining timeout >? 0 then
    match fuel with
    | O => out_of_fuel
    | S fuel' =>
        old1 <- (if negb (flag_eqb old LockedWithWaiters)
                 then Assert DebugLocks (flag_eqb old Locked) ;;
                      '(_, o) <- compare_exchange_strong flag old LockedWithWaiters ;;
                      ret o
                 else ret old) ;;
        timeout1 <- (if negb (flag_eqb old1 Unlocked)
                     then wait_until flag timeout old1
                     else ret timeout) ;;
        '(acquired, old2) <- compare_exchange_strong flag Unlocked LockedWithWaiters ;;
        if acquired then ret (true, timeout1)
        else try_lock_loop fuel' old2 timeout1
    end
  else ret (false, timeout).

(** The upgrade of the word to [LockedWithWaiters] at the head of an
    iteration (lines 70-75). *)
Definition upgrade (old : Flag) : M t (Event Flag) Flag :=
  if negb (flag_eqb old LockedWithWaiters)
  then Assert DebugLocks (flag_eqb old Locked) ;;
       '(_, o) <- compare_exchange_strong flag old LockedWithWaiters ;;
       ret o
  else ret old.

(** The wait of an iteration (lines 76-80). *)
Definition pause (old : Flag) (timeout : Timeout) : M t (Event Flag) Timeout :=
  if negb (flag_eqb old Unlocked)
  then wait_until flag timeout old
  else ret timeout.

(** [bool try_lock(Timeout *timeout)]. *)
Definition try_lock (fuel : nat) (timeout : Timeout) : M t (Event Flag) (bool * Timeout) :=
  '(acquired, old) <- compare_exchange_strong flag Unlocked Locked ;;
  if acquired then ret (true, timeout)
  else try_lock_loop fuel old timeout.

(** [bool try_lock()]: the cursor is the local [Timeout t{0}]. *)
Definition try_lock_now (fuel : nat) : M t (Event Flag) bool :=
  '(acquired, _) <- try_lock fuel {| remaining := 0 |} ;;
  ret acquired.

(** [void lock()]: the cursor is the local [Timeout t{UnlimitedTimeout}]
    and the result of [try_lock] is dropped. *)
Definition lock (fuel : nat) : M t (Event Flag) unit :=
  _ <- try_lock fuel {| remaining := UnlimitedTimeout |} ;;
  ret tt.

(** [void unlock()]. *)
Definition unlock : M t (Event Flag) unit :=
  old <- exchange flag Unlocked ;;
  Assert DebugLocks (negb (flag_eqb old Unlocked)) ;;
  if flag_eqb old LockedWithWaiters
  then notify_all flag
  else ret tt.
End Methods.

(** A held lock with no other thread. *)
Definition held : World t (Event Flag) :=
  {| mem := {| flag_value := Locked |}; env := []; log := [] |}.

(** A lock that is free with no other thread. *)
Definition free : World t (Event Flag) :=
  {| mem := init; env := []; log := [] |}.

(** A held lock that its owner releases while the caller waits. *)
Definition released : World t (Event Flag) :=
  {| mem := {| flag_value := Locked |};
     env := [ {| others := None; wake := None |};
              {| others := None; wake := None |};
              {| others := None; wake := None |};
              {| others := None; wake := None |};
              {| others := Some {| flag_value := Unlocked |}; wake := Some 3%N |} ];
     log := [] |}.

(** The operations [try_lock(Timeout *timeout)] has in its text: the
    compare-and-set of line 63, the upgrade of line 74 when [old] is
    [Locked], a timed wait of line 79 on a held word, and the
    compare-and-set of line 84. *)
Definition protocol_event (e : Event Flag) : bool :=
  match e with
  | EvCas _ Unlocked Locked _ => true
  | EvCas _ Locked LockedWithWaiters _ => true
  | EvCas _ Unlocked LockedWithWaiters _ => true
  | EvWait _ Locked _ (Some _) => true
  | EvWait _ LockedWithWaiters _ (Some _) => true
  | _ => false
  end.

End FlagLock.

(** ** TicketLock *)

Module TicketLock.

(** [uint32_t] arithmetic wraps modulo [2^32]. *)
Definition wrap32 (z : Z) : Z := z mod 2 ^ 32.

#[export] Instance Word_uint32 : Word Z :=
  {| weqb := Z.eqb; weqb_eq := Z.eqb_eq |}.

(** The object: [current], the ticket being served, and [next], the
    next ticket a caller can take.  Neither member has an initialiser;
    a zero-initialised object starts with both at zero. *)
Record t : Type := { current_value : Z; next_value : Z }.

Definition init : t := {| current_value := 0; next_value := 0 |}.

Definition current : Cell t Z :=
  {| cell_name := "current"%string;
     get := current_value;
     set := fun v o => {| current_value := v; next_value := next_value o |} |}.

Definition next : Cell t Z :=
  {| cell_name := "next"%string;
     get := next_value;
     set := fun v o => {| current_value := current_value o; next_value := v |} |}.

(** [++] on an atomic [uint32_t]. *)
Definition increment (v : Z) : Z := wrap32 (v + 1).

(** The [do ... while (true)] loop of [lock()]. *)
Fixpoint lock_loop (fuel : nat) (ticket : Z) : M t (Event Z) unit :=
  match fuel with
  | O => out_of_fuel
  | S fuel' =>
      currentSnapshot <- load current ;;
      if currentSnapshot =? ticket then ret tt
      else wait current currentSnapshot ;;
           lock_loop fuel' ticket
  end.

(** [void lock()]: [next++] yields the value before the increment. *)
Definition lock (fuel : nat) : M t (Event Z) unit :=
  '(ticket, _) <- fetch_update next increment ;;
  lock_loop fuel ticket.

(** [void unlock()]: [++current] yields the value after the increment. *)
Definition unlock : M t (Event Z) unit :=
  '(_, currentSnapshot) <- fetch_update current increment ;;
  n <- load next ;;
  if n >? currentSnapshot
  then notify_all current
  else ret tt.

(** A call of a method, and a history of calls made on one lock: each
    call runs until it returns or blocks.  A [lock()] that blocks resumes
    later, but only to load and wait: its one store is done. *)
Inductive Call : Type := CallLock | CallUnlock.

Definition run_call (c : Call) (o : t) : t :=
  let w := {| mem := o; env := []; log := [] |} in
  mem (snd (match c with
            | CallLock => lock 1 w
            | CallUnlock => unlock w
            end)).

Definition run_calls (calls : list Call) (o : t) : t :=
  fold_left (fun o c => run_call c o) calls o.

Definition is_lock (c : Call) : bool :=
  match c with CallLock => true | CallUnlock => false end.

(** Number of [lock()] and of [unlock()] calls of a history. *)
Definition locks (calls : list Call) : nat :=
  List.length (filter is_lock calls).

Definition unlocks (calls : list Call) : nat :=
  List.length (filter (fun c => negb (is_lock c)) calls).

(** No call of [unlock()] without an earlier [lock()] of its own:
    [held] counts the tickets taken and not yet released. *)
Fixpoint paired (held : nat) (calls : list Call) : bool :=
  match calls with
  | [] => true
  | CallLock :: rest => paired (S held) rest
  | CallUnlock :: rest =>
      match held with
      | O => false
      | S held' => paired held' rest
      end
  end.

(** One turn of the loop of [lock()] that does not return: the load of
    [current] that gave [fst r] and the wait on it, which found
    [snd r]; the wait carries no timeout. *)
Definition wait_round (r : Z * Z) : list (Event Z) :=
  [EvLoad "current" (fst r); EvWait "current" (fst r) (snd r) None].

Definition wait_rounds (rounds : list (Z * Z)) : list (Event Z) :=
  flat_map wait_round rounds.

(** [n] times a [lock()] followed by its [unlock()]. *)
Definition serve (n : N) (o : t) : t :=
  N.iter n (fun o => run_call CallUnlock (run_call CallLock o)) o.

(** Tickets taken and not yet released, as the two counters give them
    modulo [2^32]. *)
Definition outstanding (o : t) : Z :=
  wrap32 (next_value o - current_value o).

(** The ticket a call of [lock()] takes from the lock as it stands: what
    its fetch-and-increment of [next] returns. *)
Definition ticket_of (o : t) : option Z :=
  match log (snd (lock 1 {| mem := o; env := []; log := [] |})) with
  | EvFetchAdd _ ticket _ :: _ => Some ticket
  | _ => None
  end.

(** The tickets taken by the calls of [lock()] of a history, in the
    order of the calls. *)
Fixpoint tickets (calls : list Call) (o : t) : list Z :=
  match calls with
  | [] => []
  | c :: rest =>
      match c, ticket_of o with
      | CallLock, Some ticket => [ticket]
      | _, _ => []
      end ++ tickets rest (run_call c o)
  end.

(** Is the operation a wake? *)
Definition is_notify (e : Event Z) : bool :=
  match e with
  | EvNotifyAll _ => true
  | _ => false
  end.

End TicketLock.

(** ** NoLock *)

Module NoLock.

(** The class has no member. *)
Inductive t : Type := Obj.

(** [bool try_lock(Timeout *timeout)]. *)
Definition try_lock {Sh Ev} (timeout : Timeout) : M Sh Ev (bool * Timeout) :=
  ret (true, timeout).

(** [bool try_lock()]. *)
Definition try_lock_now {Sh Ev} : M Sh Ev bool := ret true.

(** [void lock()]. *)
Definition lock {Sh Ev} : M Sh Ev unit := ret tt.

(** [void unlock()]. *)
Definition unlock {Sh Ev} : M Sh Ev unit := ret tt.

End NoLock.

(** ** The Lockable and TryLockable concepts *)

(** [Lock] is the type of references to lock objects living in a memory
    [Sh]; [fuel] bounds the loops of a blocking method. *)
Class Lockable (Lock Sh Ev : Type) : Type := {
  lock : Lock -> nat -> M Sh Ev unit;
  unlock : Lock -> M Sh Ev unit
}.

Class TryLockable (Lock Sh Ev : Type) {HL : Lockable Lock Sh Ev} : Type := {
  try_lock : Lock -> nat -> Timeout -> M Sh Ev (bool * Timeout)
}.

Arguments TryLockable Lock Sh Ev {HL}.

(** The one lock object of a world. *)
Inductive Self : Type := This.

(** [static_assert(TryLockable<NoLock>)]. *)
#[export] Instance Lockable_NoLock : Lockable Self NoLock.t (Event unit) :=
  {| lock := fun _ _ => NoLock.lock; unlock := fun _ => NoLock.unlock |}.
#[export] Instance TryLockable_NoLock : TryLockable Self NoLock.t (Event unit) :=
  {| try_lock := fun _ _ => NoLock.try_lock |}.

(** [static_assert(TryLockable<FlagLock>)]. *)
#[export] Instance Lockable_FlagLock (DebugLocks : bool)
  : Lockable Self FlagLock.t (Event FlagLock.Flag) :=
  {| lock := fun _ => FlagLock.lock DebugLocks;
     unlock := fun _ => FlagLock.unlock DebugLocks |}.
#[export] Instance TryLockable_FlagLock (DebugLocks : bool)
  : TryLockable Self FlagLock.t (Event FlagLock.Flag) (HL := Lockable_FlagLock DebugLocks) :=
  {| try_lock := fun _ => FlagLock.try_lock DebugLocks |}.

(** [static_assert(Lockable<TicketLock>)]. *)
#[export] Instance Lockable_TicketLock : Lockable Self TicketLock.t (Event Z) :=
  {| lock := fun _ => TicketLock.lock; unlock := fun _ => TicketLock.unlock |}.

(** ** LockGuard *)

Module LockGuard.

(** [wrappedLock] is [None] for [nullptr]. *)
Record t (Lock : Type) : Type := {
    wrappedLock : option Lock;
    isOwned : bool
  }.

Section Methods.
Context {Lock Sh Ev : Type} `{HL : Lockable Lock Sh Ev}.
Variable DebugLocks : bool.

(** [wrappedLock->...]: a null reference cannot be used. *)
Definition deref {A} (p : option Lock) (k : Lock -> M Sh Ev A) : M Sh Ev A :=
  match p with
  | Some l => k l
  | None => trap
  end.

(** [explicit LockGuard(Lock &lock)]. *)
Definition construct (l : Lock) (fuel : nat) : M Sh Ev (t Lock) :=
  let this := {| wrappedLock := Some l; isOwned := true |} in
  deref (wrappedLock this) (fun p => lock p fuel) ;;
  ret this.

(** [explicit LockGuard(LockGuard &&guard)]: the new guard and the
    source as the constructor leaves it. *)
Definition move_construct (guard : t Lock) : t Lock * t Lock :=
  ({| wrappedLock := wrappedLock guard; isOwned := isOwned guard |},
   {| wrappedLock := None; isOwned := false |}).

(** [void lock()]. *)
Definition guard_lock (this : t Lock) (fuel : nat) : M Sh Ev (t Lock) :=
  Assert DebugLocks (negb (isOwned this)) ;;
  deref (wrappedLock this) (fun p => lock p fuel) ;;
  ret {| wrappedLock := wrappedLock this; isOwned := true |}.

(** [void unlock()]. *)
Definition guard_unlock (this : t Lock) : M Sh Ev (t Lock) :=
  Assert DebugLocks (isOwned this) ;;
  deref (wrappedLock this) (fun p => unlock p) ;;
  ret {| wrappedLock := wrappedLock this; isOwned := false |}.

(** [bool try_lock(Timeout *timeout) requires(TryLockable<Lock>)]. *)
Definition guard_try_lock `{HT : !TryLockable Lock Sh Ev}
  (this : t Lock) (fuel : nat) (timeout : Timeout)
  : M Sh Ev (bool * Timeout * t Lock) :=
  Assert DebugLocks (negb (isOwned this)) ;;
  '(acquired, timeout') <- deref (wrappedLock this) (fun p => try_lock p fuel timeout) ;;
  ret (acquired, timeout', {| wrappedLock := wrappedLock this; isOwned := acquired |}).

(** [~LockGuard()]. *)
Definition destroy (this : t Lock) : M Sh Ev unit :=
  if isOwned this
  then deref (wrappedLock this) (fun p => unlock p)
  else ret tt.
End Methods.

(** A guard that owns refers to a lock. *)
Definition well_formed {Lock} (g : t Lock) : bool :=
  negb (isOwned g) ||
  match wrappedLock g with
  | Some _ => true
  | None => false
  end.

End LockGuard.

(** A lock that only records the calls made on it, to count them. *)
Module Recorder.

Inductive Call : Type := CallLock (l : nat) | CallUnlock (l : nat).

Definition record (c : Call) : M (list Call) unit unit := fun w =>
  (Done tt, {| mem := mem w ++ [c]; env := env w; log := log w |}).

#[export] Instance Lockable_Recorder : Lockable nat (list Call) unit :=
  {| lock := fun l _ => record (CallLock l);
     unlock := fun l => record (CallUnlock l) |}.

Definition is_unlock_of (l : nat) (c : Call) : bool :=
  match c with
  | CallUnlock l' => Nat.eqb l l'
  | CallLock _ => false
  end.

(** Number of [unlock()] calls recorded for lock [l]. *)
Definition unlock_calls (l : nat) (w : World (list Call) unit) : nat :=
  List.length (filter (is_unlock_of l) (mem w)).

End Recorder.

(** * Properties *)

(** ** The atomic operations, run *)

Section AtomicRun.
Context {Sh T : Type} `{Word T}.
Implicit Types (w : World Sh (Event T)) (c : Cell Sh T).

Lemma load_run c w :
  load c w = (Done (get c (seen w)),
              after w (seen w) (EvLoad (cell_name c) (get c (seen w)))).
Proof. reflexivity. Qed.

Lemma compare_exchange_strong_run c expected desired w :
  compare_exchange_strong c expected desired w =
  let observed := get c (seen w) in
  let e := EvCas (cell_name c) expected desired observed in
  if weqb observed expected
  then (Done (true, expected), after w (set c desired (seen w)) e)
  else (Done (false, observed), after w (seen w) e).
Proof.
  unfold compare_exchange_strong, bind, schedule, read, emit, store, ret, after.
  simpl. destruct (weqb (get c (seen w)) expected); reflexivity.
Qed.

Lemma exchange_run c desired w :
  exchange c desired w =
  (Done (get c (seen w)),
   after w (set c desired (seen w))
           (EvExchange (cell_name c) desired (get c (seen w)))).
Proof. reflexivity. Qed.

Lemma fetch_update_run c f w :
  fetch_update c f w =
  (Done (get c (seen w), f (get c (seen w))),
   after w (set c (f (get c (seen w))) (seen w))
           (EvFetchAdd (cell_name c) (get c (seen w)) (f (get c (seen w))))).
Proof. reflexivity. Qed.

(** A wait changes neither the memory nor the log beyond its own entry,
    whatever it comes to. *)
Lemma futex_wait_world c timeout expected w :
  snd (futex_wait c timeout expected w) =
  after w (seen w) (EvWait (cell_name c) expected (get c (seen w)) timeout).
Proof.
  unfold futex_wait, bind, schedule, read, emit, ret, block, after. simpl.
  destruct (weqb (get c (seen w)) expected); [|reflexivity].
  destruct (match env w with [] => None | s :: _ => wake s end);
    destruct timeout as [tmo|]; try reflexivity.
  destruct (remaining tmo =? UnlimitedTimeout); reflexivity.
Qed.

Lemma wait_until_world c timeout expected w :
  snd (wait_until c timeout expected w) =
  after w (seen w) (EvWait (cell_name c) expected (get c (seen w)) (Some timeout)).
Proof.
  unfold wait_until, bind.
  pose proof (futex_wait_world c (Some timeout) expected w) as E.
  destruct (futex_wait c (Some timeout) expected w) as [[r| | |] w1]; simpl in *;
    exact E.
Qed.

Lemma wait_world c expected w :
  snd (wait c expected w) =
  after w (seen w) (EvWait (cell_name c) expected (get c (seen w)) None).
Proof.
  unfold wait, bind.
  pose proof (futex_wait_world c None expected w) as E.
  destruct (futex_wait c None expected w) as [[r| | |] w1]; simpl in *; exact E.
Qed.

(** A wait returns or blocks; it never aborts and has no loop. *)
Lemma wait_result c expected w :
  fst (wait c expected w) = Done tt \/
  (fst (wait c expected w) = Blocked /\ get c (seen w) = expected).
Proof.
  unfold wait, futex_wait, bind, schedule, read, emit, ret, block. simpl.
  destruct (weqb (get c (seen w)) expected) eqn:E; [|left; reflexivity].
  apply weqb_eq in E.
  destruct (match env w with [] => None | s :: _ => wake s end);
    [left; reflexivity | right; split; [reflexivity | exact E]].
Qed.
(** A wait with no timeout, run: it logs the value it finds, stores
    nothing, and sleeps for ever exactly when it finds the expected value
    and no wake is due. *)
Lemma wait_run c expected w :
  wait c expected w =
  (match weqb (get c (seen w)) expected, wake_due w with
   | true, None => Blocked
   | _, _ => Done tt
   end,
   after w (seen w) (EvWait (cell_name c) expected (get c (seen w)) None)).
Proof.
  unfold wait, futex_wait, bind, schedule, read, emit, ret, block, wake_due, after.
  simpl. destruct (weqb (get c (seen w)) expected); [|reflexivity].
  destruct (match env w with [] => None | s :: _ => wake s end); reflexivity.
Qed.

End AtomicRun.

(** Time only uses the budget up, and never an unlimited one. *)
Lemma elapse_le (t : N) (timeout : Timeout) :
  remaining (elapse t timeout) <= remaining timeout.
Proof.
  unfold elapse. destruct (remaining timeout =? UnlimitedTimeout); simpl; lia.
Qed.

Lemma elapse_unlimited (t : N) (timeout : Timeout) :
  remaining timeout = UnlimitedTimeout -> elapse t timeout = timeout.
Proof.
  intros E. unfold elapse. rewrite E, Z.eqb_refl. reflexivity.
Qed.

Section WaitUntil.
Context {Sh T : Type} `{Word T}.

(** The cursor a timed wait hands back. *)
Lemma wait_until_cursor (c : Cell Sh T) timeout expected
      (w : World Sh (Event T)) timeout' :
  fst (wait_until c timeout expected w) = Done timeout' ->
  remaining timeout' <= remaining timeout /\
  (remaining timeout = UnlimitedTimeout -> timeout' = timeout).
Proof.
  unfold wait_until, futex_wait, bind, schedule, read, emit, ret, block. simpl.
  destruct (weqb (get c (seen w)) expected).
  - destruct (match env w with [] => None | s :: _ => wake s end) as [t|].
    + simpl. intros [= <-]. split; [apply elapse_le | apply elapse_unlimited].
    + destruct (remaining timeout =? UnlimitedTimeout) eqn:E; simpl.
      * discriminate.
      * intros [= <-]. split; [apply elapse_le | apply elapse_unlimited].
  - simpl. intros [= <-]. split; [lia | reflexivity].
Qed.

(** A timed wait has no assertion to fail. *)
Lemma wait_until_no_trap (c : Cell Sh T) timeout expected
      (w : World Sh (Event T)) :
  fst (wait_until c timeout expected w) <> Trap.
Proof.
  unfold wait_until, futex_wait, bind, schedule, read, emit, ret, block. simpl.
  destruct (weqb (get c (seen w)) expected).
  - destruct (match env w with [] => None | s :: _ => wake s end) as [t|].
    + simpl. discriminate.
    + destruct (remaining timeout =? UnlimitedTimeout); simpl; discriminate.
  - simpl. discriminate.
Qed.

End WaitUntil.

(** ** Reading a sequence of operations *)

Lemma bind_done {Sh Ev A B} (m : M Sh Ev A) (k : A -> M Sh Ev B) w b w' :
  bind m k w = (Done b, w') ->
  exists a w1, m w = (Done a, w1) /\ k a w1 = (Done b, w').
Proof.
  unfold bind. destruct (m w) as [[a| | |] w1]; try discriminate.
  intros E. exists a, w1. split; [reflexivity | exact E].
Qed.

Lemma bind_run {Sh Ev A B} (m : M Sh Ev A) (k : A -> M Sh Ev B) w a w1 :
  m w = (Done a, w1) -> bind m k w = k a w1.
Proof. unfold bind. intros ->. reflexivity. Qed.

Lemma bind_trap {Sh Ev A B} (m : M Sh Ev A) (k : A -> M Sh Ev B) w :
  fst (bind m k w) = Trap ->
  fst (m w) = Trap \/ exists a w1, m w = (Done a, w1) /\ fst (k a w1) = Trap.
Proof.
  unfold bind. destruct (m w) as [[a| | |] w1]; simpl; try discriminate.
  - intros E. right. exists a, w1. split; [reflexivity | exact E].
  - intros _. left. reflexivity.
Qed.

Lemma Assert_done {Sh Ev} DebugLocks condition (w w' : World Sh Ev) :
  Assert DebugLocks condition w = (Done tt, w') -> w' = w.
Proof.
  unfold Assert. destruct (DebugLocks && negb condition); [discriminate|].
  intros [= <-]. reflexivity.
Qed.

Lemma extends_refl {Sh Ev} (w : World Sh Ev) : extends w w.
Proof. exists []. symmetry. apply app_nil_r. Qed.

Lemma events_since_after {Sh T} (w : World Sh (Event T)) m e :
  events_since w (after w m e) = [e].
Proof.
  unfold events_since, after. simpl.
  rewrite skipn_app, skipn_all, Nat.sub_diag. reflexivity.
Qed.

Lemma events_since_after2 {Sh T} (w : World Sh (Event T)) m1 e1 m2 e2 :
  events_since w (after (after w m1 e1) m2 e2) = [e1; e2].
Proof.
  unfold events_since, after. simpl.
  rewrite <- app_assoc, skipn_app, skipn_all, Nat.sub_diag. reflexivity.
Qed.

Lemma events_since_app {Sh Ev} (w w' : World Sh Ev) evs :
  log w' = log w ++ evs -> events_since w w' = evs.
Proof.
  intros E. unfold events_since. rewrite E, skipn_app, skipn_all, Nat.sub_diag.
  reflexivity.
Qed.

Lemma extends_after {Sh T} (w : World Sh (Event T)) m e : extends w (after w m e).
Proof. exists [e]. reflexivity. Qed.

(** ** FlagLock *)

Module FlagLockFacts.
Import FlagLock.

Section Facts.
Variable DebugLocks : bool.

Lemma try_lock_loop_step fuel old timeout :
  try_lock_loop DebugLocks (S fuel) old timeout =
  if remaining timeout >? 0 then
    old1 <- upgrade DebugLocks old ;;
    timeout1 <- pause old1 timeout ;;
    '(acquired, old2) <- compare_exchange_strong flag Unlocked LockedWithWaiters ;;
    if acquired then ret (true, timeout1)
    else try_lock_loop DebugLocks fuel old2 timeout1
  else ret (false, timeout).
Proof. reflexivity. Qed.

Lemma upgrade_extends old w old1 w1 :
  upgrade DebugLocks old w = (Done old1, w1) -> extends w w1.
Proof.
  unfold upgrade. destruct (negb (flag_eqb old LockedWithWaiters)).
  - intros E. apply bind_done in E as (u & w0 & E0 & E).
    destruct u. apply Assert_done in E0. subst w0.
    apply bind_done in E as ([ok o] & w2 & E2 & E).
    rewrite compare_exchange_strong_run in E2. simpl in E2.
    injection E as _ <-.
    destruct (flag_eqb (flag_value (seen w)) old);
      injection E2 as _ _ <-; apply extends_after.
  - intros [= _ <-]. apply extends_refl.
Qed.

Lemma pause_extends old timeout w timeout1 w1 :
  pause old timeout w = (Done timeout1, w1) -> extends w w1.
Proof.
  unfold pause. destruct (negb (flag_eqb old Unlocked)).
  - intros E. pose proof (wait_until_world flag timeout old w) as S.
    rewrite E in S. simpl in S. rewrite S. apply extends_after.
  - intros [= _ <-]. apply extends_refl.
Qed.

Lemma pause_cursor old timeout w timeout1 w1 :
  pause old timeout w = (Done timeout1, w1) ->
  remaining timeout1 <= remaining timeout /\
  (remaining timeout = UnlimitedTimeout -> timeout1 = timeout).
Proof.
  unfold pause. destruct (negb (flag_eqb old Unlocked)).
  - intros E. apply (wait_until_cursor flag timeout old w). rewrite E. reflexivity.
  - intros [= <- _]. split; [lia | reflexivity].
Qed.

(** The acquiring compare-and-set of an iteration (lines 81-87). *)
Lemma acquire_cases w :
  (flag_value (seen w) = Unlocked /\
   compare_exchange_strong flag Unlocked LockedWithWaiters w =
   (Done (true, Unlocked),
    after w {| flag_value := LockedWithWaiters |}
          (EvCas "flag" Unlocked LockedWithWaiters Unlocked)))
  \/
  (flag_value (seen w) <> Unlocked /\
   compare_exchange_strong flag Unlocked LockedWithWaiters w =
   (Done (false, flag_value (seen w)),
    after w (seen w)
          (EvCas "flag" Unlocked LockedWithWaiters (flag_value (seen w))))).
Proof.
  rewrite compare_exchange_strong_run. simpl.
  destruct (flag_value (seen w)) eqn:E; simpl.
  - left. split; reflexivity.
  - right. split; [discriminate | reflexivity].
  - right. split; [discriminate | reflexivity].
Qed.

(** One iteration that returns: its three stages. *)
Lemma try_lock_loop_done fuel old timeout w r w' :
  try_lock_loop DebugLocks (S fuel) old timeout w = (Done r, w') ->
  remaining timeout > 0 ->
  exists old1 w1 timeout1 w2,
    upgrade DebugLocks old w = (Done old1, w1) /\
    pause old1 timeout w1 = (Done timeout1, w2) /\
    ((flag_value (seen w2) = Unlocked /\ r = (true, timeout1) /\
      w' = after w2 {| flag_value := LockedWithWaiters |}
                 (EvCas "flag" Unlocked LockedWithWaiters Unlocked))
     \/
     (flag_value (seen w2) <> Unlocked /\
      try_lock_loop DebugLocks fuel (flag_value (seen w2)) timeout1
        (after w2 (seen w2)
           (EvCas "flag" Unlocked LockedWithWaiters (flag_value (seen w2))))
      = (Done r, w'))).
Proof.
  rewrite try_lock_loop_step. intros E P.
  apply Z.gtb_gt in P. rewrite P in E.
  apply bind_done in E as (old1 & w1 & E1 & E).
  apply bind_done in E as (timeout1 & w2 & E2 & E).
  exists old1, w1, timeout1, w2. split; [exact E1|]. split; [exact E2|].
  destruct (acquire_cases w2) as [[U C] | [U C]];
    rewrite (bind_run _ _ _ C) in E.
  - left. injection E as <- <-. auto.
  - right. split; [exact U | exact E].
Qed.

(** A [false] leaves the loop only through its condition. *)
Lemma try_lock_loop_false fuel : forall old timeout w timeout' w',
  try_lock_loop DebugLocks fuel old timeout w = (Done (false, timeout'), w') ->
  remaining timeout' <= 0.
Proof.
  induction fuel as [|fuel IH]; intros old timeout w timeout' w' E.
  - simpl in E. destruct (remaining timeout >? 0) eqn:P; [discriminate|].
    injection E as <- _. rewrite Z.gtb_ltb, Z.ltb_ge in P. lia.
  - destruct (remaining timeout >? 0) eqn:P.
    + apply try_lock_loop_done in E; [|apply Z.gtb_gt; exact P].
      destruct E as (old1 & w1 & timeout1 & w2 & _ & _ & [(_ & R & _) | (_ & E)]).
      * discriminate.
      * exact (IH _ _ _ _ _ E).
    + rewrite try_lock_loop_step, P in E. injection E as <- _.
      rewrite Z.gtb_ltb, Z.ltb_ge in P. lia.
Qed.

(** With an unlimited budget the condition of the loop never fails. *)
Lemma try_lock_loop_unlimited fuel : forall old timeout w acquired timeout' w',
  remaining timeout = UnlimitedTimeout ->
  try_lock_loop DebugLocks fuel old timeout w = (Done (acquired, timeout'), w') ->
  acquired = true /\ timeout' = timeout.
Proof.
  induction fuel as [|fuel IH]; intros old timeout w acquired timeout' w' U E.
  - simpl in E. rewrite U in E. discriminate.
  - assert (P : remaining timeout > 0) by (rewrite U; reflexivity).
    apply try_lock_loop_done in E; [|exact P].
    destruct E as (old1 & w1 & timeout1 & w2 & _ & E2 & [(_ & R & _) | (_ & E)]).
    + apply pause_cursor in E2 as [_ K]. injection R as -> ->. auto.
    + apply pause_cursor in E2 as [_ K]. specialize (K U). subst timeout1.
      exact (IH _ _ _ _ _ _ U E).
Qed.

(** Every [true] of the loop is a compare-and-set that found the word at
    [Unlocked] and left it at [LockedWithWaiters]. *)
Lemma try_lock_loop_true fuel : forall old timeout w timeout' w',
  try_lock_loop DebugLocks fuel old timeout w = (Done (true, timeout'), w') ->
  mem w' = {| flag_value := LockedWithWaiters |} /\
  exists evs,
    log w' = log w ++ evs ++ [EvCas "flag" Unlocked LockedWithWaiters Unlocked].
Proof.
  induction fuel as [|fuel IH]; intros old timeout w timeout' w' E.
  - simpl in E. destruct (remaining timeout >? 0); discriminate.
  - destruct (remaining timeout >? 0) eqn:P.
    + apply try_lock_loop_done in E; [|apply Z.gtb_gt; exact P].
      destruct E as (old1 & w1 & timeout1 & w2 & E1 & E2 & [(_ & _ & ->) | (_ & E)]).
      * split; [reflexivity|].
        apply upgrade_extends in E1 as [e1 L1].
        apply pause_extends in E2 as [e2 L2].
        exists (e1 ++ e2). unfold after. simpl. rewrite L2, L1, <- !app_assoc. reflexivity.
      * apply IH in E as [Hm [evs L]]. split; [exact Hm|].
        apply upgrade_extends in E1 as [e1 L1].
        apply pause_extends in E2 as [e2 L2].
        exists (e1 ++ e2 ++
                EvCas "flag" Unlocked LockedWithWaiters (flag_value (seen w2)) :: evs).
        rewrite L. unfold after. simpl. rewrite L2, L1, <- !app_assoc. reflexivity.
    + rewrite try_lock_loop_step, P in E. discriminate.
Qed.

(** The assertion of the loop never fails: the loop is entered, and
    entered again, only after a compare-and-set that did not find
    [Unlocked]. *)
Lemma try_lock_loop_no_trap fuel : forall old timeout w,
  old <> Unlocked ->
  fst (try_lock_loop DebugLocks fuel old timeout w) <> Trap.
Proof.
  induction fuel as [|fuel IH]; intros old timeout w U.
  - simpl. destruct (remaining timeout >? 0); discriminate.
  - rewrite try_lock_loop_step. destruct (remaining timeout >? 0); [|discriminate].
    intros E. apply bind_trap in E as [E | (old1 & w1 & _ & E)].
    + unfold upgrade in E. destruct old; try congruence; simpl in E.
      * unfold Assert in E. rewrite andb_false_r in E.
        unfold bind in E. simpl in E. rewrite compare_exchange_strong_run in E.
        simpl in E. destruct (flag_eqb (flag_value (seen w)) Locked); discriminate.
      * discriminate.
    + apply bind_trap in E as [E | (timeout1 & w2 & _ & E)].
      * unfold pause in E. destruct (negb (flag_eqb old1 Unlocked)).
        -- exact (wait_until_no_trap _ _ _ _ E).
        -- discriminate.
      * unfold bind in E. destruct (acquire_cases w2) as [[_ C] | [V C]];
          rewrite C in E.
        -- discriminate.
        -- exact (IH _ _ _ V E).
Qed.

(** The first compare-and-set of [try_lock] (lines 62-66). *)
Lemma try_lock_run fuel timeout (w : World t (Event Flag)) :
  try_lock DebugLocks fuel timeout w =
  match flag_value (seen w) with
  | Unlocked =>
      (Done (true, timeout),
       after w {| flag_value := Locked |} (EvCas "flag" Unlocked Locked Unlocked))
  | observed =>
      try_lock_loop DebugLocks fuel observed timeout
        (after w (seen w) (EvCas "flag" Unlocked Locked observed))
  end.
Proof.
  unfold try_lock, bind. rewrite compare_exchange_strong_run. simpl.
  destruct (flag_value (seen w)); reflexivity.
Qed.

Lemma try_lock_no_trap fuel timeout (w : World t (Event Flag)) :
  fst (try_lock DebugLocks fuel timeout w) <> Trap.
Proof.
  rewrite try_lock_run. destruct (flag_value (seen w)).
  - discriminate.
  - apply try_lock_loop_no_trap. discriminate.
  - apply try_lock_loop_no_trap. discriminate.
Qed.

(** With no budget the loop is not entered. *)
Lemma try_lock_loop_exhausted fuel old timeout (w : World t (Event Flag)) :
  remaining timeout <= 0 ->
  try_lock_loop DebugLocks fuel old timeout w = (Done (false, timeout), w).
Proof.
  intros P. assert (E : (remaining timeout >? 0) = false)
    by (rewrite Z.gtb_ltb; apply Z.ltb_ge; exact P).
  destruct fuel; simpl; rewrite E; reflexivity.
Qed.

(** The non-blocking probe, run. *)
Lemma try_lock_now_run fuel (w : World t (Event Flag)) :
  try_lock_now DebugLocks fuel w =
  match flag_value (seen w) with
  | Unlocked =>
      (Done true,
       after w {| flag_value := Locked |} (EvCas "flag" Unlocked Locked Unlocked))
  | observed =>
      (Done false, after w (seen w) (EvCas "flag" Unlocked Locked observed))
  end.
Proof.
  unfold try_lock_now, bind. rewrite try_lock_run.
  destruct (flag_value (seen w)); try reflexivity;
    rewrite try_lock_loop_exhausted by (simpl; lia); reflexivity.
Qed.

(** C2. [try_lock(timeout)] returns false only with a cursor whose
    remaining budget is not greater than zero; with the unlimited budget
    of [lock()] it never returns false, so that whenever [lock()] returns
    its last operation is a compare-and-set that took the lock; and no
    debug assertion aborts [lock()]. *)
Theorem FlagLock_try_lock_fails_only_exhausted fuel (w : World t (Event Flag)) :
  (forall timeout timeout' w',
     try_lock DebugLocks fuel timeout w = (Done (false, timeout'), w') ->
     remaining timeout' <= 0)
  /\
  (forall acquired timeout' w',
     try_lock DebugLocks fuel {| remaining := UnlimitedTimeout |} w
       = (Done (acquired, timeout'), w') ->
     acquired = true)
  /\
  (forall w',
     lock DebugLocks fuel w = (Done tt, w') ->
     exists evs desired,
       desired <> Unlocked /\
       mem w' = {| flag_value := desired |} /\
       log w' = log w ++ evs ++ [EvCas "flag" Unlocked desired Unlocked])
  /\
  fst (lock DebugLocks fuel w) <> Trap.
Proof.
  split; [|split; [|split]].
  - intros timeout timeout' w' E. rewrite try_lock_run in E.
    destruct (flag_value (seen w)).
    + discriminate.
    + exact (@try_lock_loop_false _ _ _ _ _ _ E).
    + exact (@try_lock_loop_false _ _ _ _ _ _ E).
  - intros acquired timeout' w' E. rewrite try_lock_run in E.
    destruct (flag_value (seen w)).
    + injection E as <- _ _. reflexivity.
    + apply try_lock_loop_unlimited in E as [K _]; [exact K | reflexivity].
    + apply try_lock_loop_unlimited in E as [K _]; [exact K | reflexivity].
  - intros w' E. unfold lock in E.
    apply bind_done in E as ([acquired timeout'] & w1 & E & R).
    injection R as <-. rewrite try_lock_run in E.
    destruct (flag_value (seen w)) eqn:S.
    + injection E as _ _ <-. exists [], Locked.
      split; [discriminate|]. split; reflexivity.
    + pose proof E as K.
      apply try_lock_loop_unlimited in K as [-> _]; [|reflexivity].
      apply try_lock_loop_true in E as [Hm [evs L]].
      exists (EvCas "flag" Unlocked Locked Locked :: evs), LockedWithWaiters.
      split; [discriminate|]. split; [exact Hm|].
      rewrite L. unfold after. simpl. rewrite <- app_assoc. reflexivity.
    + pose proof E as K.
      apply try_lock_loop_unlimited in K as [-> _]; [|reflexivity].
      apply try_lock_loop_true in E as [Hm [evs L]].
      exists (EvCas "flag" Unlocked Locked LockedWithWaiters :: evs), LockedWithWaiters.
      split; [discriminate|]. split; [exact Hm|].
      rewrite L. unfold after. simpl. rewrite <- app_assoc. reflexivity.
  - unfold lock, bind.
    pose proof (try_lock_no_trap fuel {| remaining := UnlimitedTimeout |} w) as N.
    destruct (try_lock DebugLocks fuel {| remaining := UnlimitedTimeout |} w)
      as [[r| | |] w1]; simpl in *; congruence.
Qed.


(** [unlock()], run. *)
Lemma flag_unlock_run (w : World t (Event Flag)) :
  unlock DebugLocks w =
  let previous := flag_value (seen w) in
  let w1 := after w {| flag_value := Unlocked |}
                  (EvExchange "flag" Unlocked previous) in
  match previous with
  | LockedWithWaiters => (Done tt, after w1 (seen w1) (EvNotifyAll "flag"))
  | Locked => (Done tt, w1)
  | Unlocked => (if DebugLocks then Trap else Done tt, w1)
  end.
Proof.
  unfold unlock, bind. rewrite exchange_run. simpl.
  destruct (flag_value (seen w)); destruct DebugLocks; reflexivity.
Qed.

(** C5. [unlock()] exchanges the word for [Unlocked] and reads what it
    held; a wake of all waiters is issued exactly when that was
    [LockedWithWaiters], and none when it was [Locked]. *)
Theorem FlagLock_unlock_wakes_iff_waiters (w : World t (Event Flag)) :
  let previous := flag_value (seen w) in
  let w1 := after w {| flag_value := Unlocked |}
                  (EvExchange "flag" Unlocked previous) in
  unlock DebugLocks w =
  match previous with
  | LockedWithWaiters => (Done tt, after w1 (seen w1) (EvNotifyAll "flag"))
  | Locked => (Done tt, w1)
  | Unlocked => (if DebugLocks then Trap else Done tt, w1)
  end
  /\
  (In (EvNotifyAll "flag") (events_since w (snd (unlock DebugLocks w)))
   <-> previous = LockedWithWaiters).
Proof.
  cbv zeta. split; [apply flag_unlock_run|]. rewrite flag_unlock_run. cbv zeta.
  destruct (flag_value (seen w)); simpl.
  - rewrite events_since_after. simpl. split; [intros [|[]]|]; discriminate.
  - rewrite events_since_after. simpl. split; [intros [|[]]|]; discriminate.
  - rewrite events_since_after2. simpl. split; [reflexivity | auto].
Qed.

(** C8. [try_lock()] is [try_lock] with the cursor [Timeout{0}]: it
    returns true when it finds the word at [Unlocked] and false when it
    finds [Locked] or [LockedWithWaiters], and its only operation is the
    one compare-and-set, so it never waits. *)
Theorem FlagLock_try_lock_now_probe fuel (w : World t (Event Flag)) :
  try_lock_now DebugLocks fuel w =
  (let (r, w') := try_lock DebugLocks fuel {| remaining := 0 |} w in
   (match r with
    | Done (acquired, _) => Done acquired
    | Blocked => Blocked
    | Trap => Trap
    | OutOfFuel => OutOfFuel
    end, w'))
  /\
  fst (try_lock_now DebugLocks fuel w) =
  Done match flag_value (seen w) with
       | Unlocked => true
       | Locked | LockedWithWaiters => false
       end
  /\
  events_since w (snd (try_lock_now DebugLocks fuel w)) =
  [EvCas "flag" Unlocked Locked (flag_value (seen w))]
  /\
  forallb (fun e => negb (is_wait e))
          (events_since w (snd (try_lock_now DebugLocks fuel w))) = true.
Proof.
  split.
  { unfold try_lock_now, bind.
    destruct (try_lock DebugLocks fuel {| remaining := 0 |} w) as [[[a c]| | |] w'];
      reflexivity. }
  rewrite try_lock_now_run.
  destruct (flag_value (seen w)); simpl; rewrite events_since_after; auto.
Qed.

(** C10. A probe that finds the word held fails and stores nothing: the
    memory it leaves is the memory it found, because with a budget of
    zero the loop, and with it the upgrade to [LockedWithWaiters], is not
    entered. *)
Theorem FlagLock_failed_probe_frame fuel (w : World t (Event Flag)) :
  flag_value (seen w) <> Unlocked ->
  fst (try_lock_now DebugLocks fuel w) = Done false /\
  mem (snd (try_lock_now DebugLocks fuel w)) = seen w /\
  forallb (fun e => negb (stores e))
          (events_since w (snd (try_lock_now DebugLocks fuel w))) = true /\
  (forall old w0,
     try_lock_loop DebugLocks fuel old {| remaining := 0 |} w0
     = (Done (false, {| remaining := 0 |}), w0)).
Proof.
  intros U. rewrite try_lock_now_run.
  destruct (flag_value (seen w)) eqn:S; [congruence| |]; simpl;
    rewrite events_since_after; repeat split; auto;
    intros; apply try_lock_loop_exhausted; simpl; lia.
Qed.

End Facts.

Lemma FlagLock_try_lock_fails_only_exhausted_witness :
  remaining {| remaining := 0 |} <= 0 /\
  true = true /\
  exists evs desired,
    desired <> Unlocked /\
    mem (snd (lock false 3 released)) = {| flag_value := desired |} /\
    log (snd (lock false 3 released))
    = log released ++ evs ++ [EvCas "flag" Unlocked desired Unlocked].
Proof.
  split; [|split].
  - eapply (proj1 (FlagLock_try_lock_fails_only_exhausted false 3 held)
                  {| remaining := 5 |}).
    vm_compute. reflexivity.
  - eapply (proj1 (proj2 (FlagLock_try_lock_fails_only_exhausted false 3 released))).
    vm_compute. reflexivity.
  - eapply (proj1 (proj2 (proj2
      (FlagLock_try_lock_fails_only_exhausted false 3 released)))).
    vm_compute. reflexivity.
Defined.


Lemma FlagLock_failed_probe_frame_witness :
  fst (try_lock_now false 0 held) = Done false /\
  mem (snd (try_lock_now false 0 held)) = {| flag_value := Locked |}.
Proof.
  destruct (FlagLock_failed_probe_frame false 0 held) as (R & F & _).
  - vm_compute. discriminate.
  - split; [exact R | exact F].
Defined.

End FlagLockFacts.

(** ** TicketLock *)

Module TicketLockFacts.
Import TicketLock.

(** One turn of the loop of [lock()]. *)
Lemma lock_loop_step fuel ticket (w : World t (Event Z)) :
  lock_loop (S fuel) ticket w =
  let c := current_value (seen w) in
  let w1 := after w (seen w) (EvLoad "current" c) in
  if c =? ticket then (Done tt, w1)
  else match wait current c w1 with
       | (Done _, w2) => lock_loop fuel ticket w2
       | (Blocked, w2) => (Blocked, w2)
       | (Trap, w2) => (Trap, w2)
       | (OutOfFuel, w2) => (OutOfFuel, w2)
       end.
Proof.
  simpl. unfold bind at 1. rewrite load_run. simpl.
  destruct (_ =? _); reflexivity.
Qed.

(** The loop of [lock()]: what it logs, for each way it can end. *)
Lemma lock_loop_rounds fuel ticket : forall (w : World t (Event Z)),
  exists rounds fin,
    log (snd (lock_loop fuel ticket w)) = log w ++ wait_rounds rounds ++ fin /\
    Forall (fun r => fst r <> ticket) rounds /\
    match fst (lock_loop fuel ticket w) with
    | Done _ => fin = [EvLoad "current" ticket]
    | Blocked => fin = [] /\ exists rounds' s, rounds = rounds' ++ [(s, s)]
    | OutOfFuel => fin = [] /\ List.length rounds = fuel
    | Trap => False
    end.
Proof.
  induction fuel as [|fuel IH]; intros w.
  - exists [], []. simpl. rewrite app_nil_r. auto.
  - rewrite lock_loop_step. cbv zeta.
    set (c := current_value (seen w)).
    set (w1 := after w (seen w) (EvLoad "current" c)).
    destruct (c =? ticket) eqn:Q.
    + apply Z.eqb_eq in Q. exists [], [EvLoad "current" ticket].
      simpl. rewrite Q. auto.
    + apply Z.eqb_neq in Q.
      pose proof (wait_world current c w1) as Sw.
      pose proof (wait_result current c w1) as Rw.
      destruct (wait current c w1) as [r w2]. simpl in Sw, Rw.
      set (o := current_value (seen w1)) in *.
      destruct Rw as [-> | [-> B]].
      * destruct (IH w2) as (rounds & fin & L & F & K).
        exists ((c, o) :: rounds), fin. split; [|split].
        -- rewrite L, Sw. unfold after, w1. simpl. rewrite <- !app_assoc. reflexivity.
        -- constructor; [exact Q | exact F].
        -- destruct (fst (lock_loop fuel ticket w2)); auto.
           ++ destruct K as [-> (rounds' & s & ->)]. split; [reflexivity|].
              exists ((c, o) :: rounds'), s. reflexivity.
           ++ destruct K as [-> <-]. auto.
      * exists [(c, o)], []. simpl. split; [|split].
        -- rewrite Sw. unfold after, w1. simpl. rewrite <- !app_assoc. reflexivity.
        -- constructor; [exact Q | constructor].
        -- split; [reflexivity|]. exists [], c. simpl. rewrite B. reflexivity.
Qed.

(** The loop of [lock()] only loads and waits: whatever the schedule, the
    one store of a call of [lock()] is the increment of [next]. *)
Lemma lock_loop_stores_nothing fuel ticket (w : World t (Event Z)) :
  forallb (fun e => negb (stores e))
          (events_since w (snd (lock_loop fuel ticket w))) = true.
Proof.
  destruct (lock_loop_rounds fuel ticket w) as (rounds & fin & L & _ & K).
  rewrite (events_since_app _ _ _ L), forallb_app. apply andb_true_iff. split.
  - clear. induction rounds as [|r rounds IH]; [reflexivity | exact IH].
  - destruct (fst (lock_loop fuel ticket w)).
    + rewrite K. reflexivity.
    + destruct K as [-> _]. reflexivity.
    + destruct K.
    + destruct K as [-> _]. reflexivity.
Qed.

(** [lock()] up to its loop. *)
Lemma ticket_lock_run fuel (w : World t (Event Z)) :
  lock fuel w =
  let ticket := next_value (seen w) in
  lock_loop fuel ticket
    (after w (set next (wrap32 (ticket + 1)) (seen w))
           (EvFetchAdd "next" ticket (wrap32 (ticket + 1)))).
Proof. unfold lock, bind. rewrite fetch_update_run. reflexivity. Qed.

(** C6. [lock()] fetches [next] and stores its increment in one atomic
    operation, and the value fetched is its ticket.  Each turn of its
    loop then loads [current] as the memory holds it; on the ticket the
    call returns; on any other value it waits on [current] with the
    value just loaded as the expected one and no timeout, and takes the
    next turn when the wait ends.  The loop stores nothing.  So the log
    of a call is the fetch-and-increment, then loads and waits on values
    other than the ticket, and the load of the ticket exactly when the
    call returns. *)
Theorem TicketLock_lock_protocol fuel (w : World t (Event Z)) :
  let ticket := next_value (seen w) in
  let w1 := after w {| current_value := current_value (seen w);
                       next_value := wrap32 (ticket + 1) |}
                  (EvFetchAdd "next" ticket (wrap32 (ticket + 1))) in
  lock fuel w = lock_loop fuel ticket w1
  /\
  (forall w', lock_loop 0 ticket w' = (OutOfFuel, w'))
  /\
  (forall fuel' w',
     let c := current_value (seen w') in
     let wl := after w' (seen w') (EvLoad "current" c) in
     let ww := after wl (seen wl)
                     (EvWait "current" c (current_value (seen wl)) None) in
     lock_loop (S fuel') ticket w' =
     if c =? ticket then (Done tt, wl)
     else match current_value (seen wl) =? c, wake_due wl with
          | true, None => (Blocked, ww)
          | _, _ => lock_loop fuel' ticket ww
          end)
  /\
  exists rounds fin,
    events_since w (snd (lock fuel w))
    = EvFetchAdd "next" ticket (wrap32 (ticket + 1)) :: wait_rounds rounds ++ fin /\
    Forall (fun r => fst r <> ticket) rounds /\
    match fst (lock fuel w) with
    | Done _ => fin = [EvLoad "current" ticket]
    | Blocked => fin = [] /\ exists rounds' s, rounds = rounds' ++ [(s, s)]
    | OutOfFuel => fin = [] /\ List.length rounds = fuel
    | Trap => False
    end.
Proof.
  intros ticket w1.
  assert (E : lock fuel w = lock_loop fuel ticket w1)
    by (rewrite ticket_lock_run; reflexivity).
  split; [exact E|]. split; [reflexivity|]. split.
  - intros fuel' w'. cbv zeta. rewrite lock_loop_step. cbv zeta.
    destruct (current_value (seen w') =? ticket); [reflexivity|].
    rewrite wait_run. simpl.
    destruct (_ =? _); [|reflexivity].
    destruct (wake_due _); reflexivity.
  - rewrite E.
    destruct (lock_loop_rounds fuel ticket w1) as (rounds & fin & L & F & K).
    exists rounds, fin. split; [|split; [exact F | exact K]].
    apply events_since_app. rewrite L. unfold w1, after. simpl.
    rewrite <- app_assoc. reflexivity.
Qed.

(** [unlock()], run. *)
Lemma ticket_unlock_run (w : World t (Event Z)) :
  unlock w =
  let snapshot := wrap32 (current_value (seen w) + 1) in
  let w1 := after w (set current snapshot (seen w))
                  (EvFetchAdd "current" (current_value (seen w)) snapshot) in
  let n := next_value (seen w1) in
  let w2 := after w1 (seen w1) (EvLoad "next" n) in
  (Done tt,
   if n >? snapshot then after w2 (seen w2) (EvNotifyAll "current") else w2).
Proof.
  unfold unlock, bind. rewrite fetch_update_run, load_run. simpl.
  destruct (_ >? _); reflexivity.
Qed.

(** C7. [unlock()] stores the increment of [current], modulo [2^32], in
    one atomic operation and keeps the value after the increment; then
    it loads [next]; a wake of all waiters on [current] is issued exactly
    when [next] is greater than the new [current].  It always returns,
    and the increment is its only store. *)
Theorem TicketLock_unlock_protocol (w : World t (Event Z)) :
  let snapshot := wrap32 (current_value (seen w) + 1) in
  let w1 := after w {| current_value := snapshot;
                       next_value := next_value (seen w) |}
                  (EvFetchAdd "current" (current_value (seen w)) snapshot) in
  let n := next_value (seen w1) in
  let w2 := after w1 (seen w1) (EvLoad "next" n) in
  unlock w =
  (Done tt,
   if n >? snapshot then after w2 (seen w2) (EvNotifyAll "current") else w2)
  /\
  fst (unlock w) = Done tt /\
  events_since w (snd (unlock w))
  = EvFetchAdd "current" (current_value (seen w)) snapshot
    :: EvLoad "next" n
    :: (if n >? snapshot then [EvNotifyAll "current"] else []) /\
  (In (EvNotifyAll "current") (events_since w (snd (unlock w))) <-> n > snapshot).
Proof.
  cbv zeta. split; [rewrite ticket_unlock_run; reflexivity|].
  rewrite ticket_unlock_run. cbv zeta. simpl fst. simpl snd.
  split; [reflexivity|].
  destruct (_ >? _) eqn:G.
  - erewrite events_since_app
      by (unfold after; simpl; rewrite <- !app_assoc; reflexivity).
    split; [reflexivity|]. simpl. split; [intros _|auto].
    apply Z.gtb_gt. exact G.
  - erewrite events_since_app
      by (unfold after; simpl; rewrite <- !app_assoc; reflexivity).
    split; [reflexivity|]. simpl.
    rewrite Z.gtb_ltb, Z.ltb_ge in G.
    split; [intros [E|[E|[]]]; discriminate | lia].
Qed.

(** *** Histories of calls *)

(** What a call of [lock()] stores: the increment of [next]. *)
Lemma run_call_lock (o : t) :
  run_call CallLock o =
  {| current_value := current_value o; next_value := wrap32 (next_value o + 1) |}.
Proof.
  unfold run_call. rewrite ticket_lock_run. cbv zeta. rewrite lock_loop_step. cbv zeta.
  destruct (_ =? _); [reflexivity|].
  unfold wait, futex_wait, bind, schedule, read, emit, ret, block. simpl.
  rewrite Z.eqb_refl. reflexivity.
Qed.

(** What a call of [unlock()] stores: the increment of [current]. *)
Lemma run_call_unlock (o : t) :
  run_call CallUnlock o =
  {| current_value := wrap32 (current_value o + 1); next_value := next_value o |}.
Proof.
  unfold run_call. rewrite ticket_unlock_run. cbv zeta. simpl.
  destruct (_ >? _); reflexivity.
Qed.

Lemma wrap32_idem (z : Z) : wrap32 (wrap32 z + 1) = wrap32 (z + 1).
Proof. unfold wrap32. apply Zplus_mod_idemp_l. Qed.

Lemma wrap32_small (z : Z) : 0 <= z < 2 ^ 32 -> wrap32 z = z.
Proof. apply Z.mod_small. Qed.

(** After a history the counters are the numbers of calls, modulo
    [2^32]. *)
Lemma run_calls_counts (calls : list Call) : forall c n,
  run_calls calls {| current_value := wrap32 c; next_value := wrap32 n |} =
  {| current_value := wrap32 (c + Z.of_nat (unlocks calls));
     next_value := wrap32 (n + Z.of_nat (locks calls)) |}.
Proof.
  induction calls as [|call calls IH]; intros c n.
  - unfold unlocks, locks. simpl. rewrite !Z.add_0_r. reflexivity.
  - unfold run_calls. simpl. fold (run_calls calls). destruct call.
    + rewrite run_call_lock. simpl. rewrite wrap32_idem, IH.
      unfold unlocks, locks. simpl. f_equal; f_equal; lia.
    + rewrite run_call_unlock. simpl. rewrite wrap32_idem, IH.
      unfold unlocks, locks. simpl. f_equal; f_equal; lia.
Qed.

(** In a paired history the calls of [unlock()] are at most the tickets
    held at its start plus the calls of [lock()]. *)
Lemma paired_counts (calls : list Call) : forall held,
  paired held calls = true -> (unlocks calls <= held + locks calls)%nat.
Proof.
  induction calls as [|call calls IH]; intros held P.
  - unfold unlocks. simpl. lia.
  - destruct call; simpl in P.
    + apply IH in P. unfold unlocks, locks in *. simpl. lia.
    + destruct held as [|held]; [discriminate|].
      apply IH in P. unfold unlocks, locks in *. simpl. lia.
Qed.

Lemma serve_counts (n : N) :
  serve n init =
  {| current_value := wrap32 (Z.of_N n); next_value := wrap32 (Z.of_N n) |}.
Proof.
  unfold serve. induction n as [|n IH] using N.peano_ind.
  - reflexivity.
  - rewrite N.iter_succ, IH, run_call_lock, run_call_unlock. simpl.
    rewrite !wrap32_idem, N2Z.inj_succ. reflexivity.
Qed.

(** [serve] is a history of calls, and a paired one. *)
Lemma serve_history (n : nat) : forall o : t,
  serve (N.of_nat n) o =
  run_calls (List.concat (repeat [CallLock; CallUnlock] n)) o /\
  paired 0 (List.concat (repeat [CallLock; CallUnlock] n)) = true.
Proof.
  induction n as [|n IH]; intros o.
  - split; reflexivity.
  - destruct (IH (run_call CallUnlock (run_call CallLock o))) as [E P].
    split; [|exact P].
    unfold serve in *. rewrite Nat2N.inj_succ, N.iter_succ_r, E. reflexivity.
Qed.

(** C1, as the code has it.  From the zero-initialised lock, after any
    history in which no [unlock()] comes without an earlier [lock()] of
    its own and fewer than [2^32] calls of [lock()] were made,
    [next >= current]: their difference counts the tickets taken and not
    yet released. *)
Theorem TicketLock_next_ge_current (calls : list Call) :
  paired 0 calls = true ->
  Z.of_nat (locks calls) < 2 ^ 32 ->
  let o := run_calls calls init in
  next_value o >= current_value o /\
  next_value o - current_value o
  = Z.of_nat (locks calls) - Z.of_nat (unlocks calls).
Proof.
  intros P B o. subst o.
  change init with {| current_value := wrap32 0; next_value := wrap32 0 |}.
  rewrite run_calls_counts. simpl.
  apply paired_counts in P.
  rewrite !wrap32_small by lia. lia.
Qed.

Lemma TicketLock_next_ge_current_witness :
  let o := run_calls [CallLock; CallLock; CallUnlock] init in
  next_value o >= current_value o /\ next_value o - current_value o = 1.
Proof.
  apply (TicketLock_next_ge_current [CallLock; CallLock; CallUnlock]).
  - reflexivity.
  - reflexivity.
Defined.

(** C1 as stated fails twice: a call of [unlock()] on a lock that nobody
    holds leaves [current = 1] above [next = 0]; and when [next] wraps,
    here on the [lock()] that follows [2^32 - 1] uncontended
    acquisitions and releases, [next = 0] is below [current = 2^32 - 1]. *)
Lemma TicketLock_next_ge_current_counterexample :
  ~ (forall calls : list Call,
       next_value (run_calls calls init) >= current_value (run_calls calls init))
  /\
  (let o := run_calls [CallUnlock] init in
   current_value o = 1 /\ next_value o = 0)
  /\
  (let o := run_call CallLock (serve (2 ^ 32 - 1) init) in
   current_value o = 2 ^ 32 - 1 /\ next_value o = 0).
Proof.
  split; [|split].
  - intros K. specialize (K [CallUnlock]). vm_compute in K. apply K. reflexivity.
  - split; reflexivity.
  - rewrite serve_counts, run_call_lock. simpl. split; reflexivity.
Qed.

End TicketLockFacts.

(** ** NoLock *)

Module NoLockFacts.

(** C9. Every method of [NoLock] returns at once, [try_lock] with true
    for every cursor, and leaves the cursor, the memory, the schedule and
    the log of operations as they were: nothing blocks, nothing fails. *)
Theorem NoLock_always_succeeds {Sh Ev} (timeout : Timeout) (w : World Sh Ev) :
  NoLock.try_lock timeout w = (Done (true, timeout), w) /\
  NoLock.try_lock_now w = (Done true, w) /\
  NoLock.lock w = (Done tt, w) /\
  NoLock.unlock w = (Done tt, w).
Proof. repeat split. Qed.

End NoLockFacts.

(** ** LockGuard *)

Module LockGuardFacts.
Import LockGuard Recorder.

Section Facts.
Context {Lock Sh Ev : Type} `{HL : Lockable Lock Sh Ev}.

(** C3. Over any Lockable lock: the constructor calls [lock()] on the
    lock and, when that returns, yields a guard that refers to it and
    owns it; the move constructor gives the new guard the reference and
    the ownership flag of the source and leaves the source with no
    reference and not owning; the destructor does what [unlock()] of the
    lock does when the flag is set and nothing at all when it is not.  So
    after a move the destructor of the source does nothing and that of
    the destination does what the destructor of the source would have
    done before the move: one [unlock()] if the source owned the lock. *)
Theorem LockGuard_move_transfers_ownership
        (l : Lock) (guard : t Lock) (fuel : nat) (w : World Sh Ev) :
  construct l fuel w =
  (let (r, w') := lock l fuel w in
   (match r with
    | Done _ => Done {| wrappedLock := Some l; isOwned := true |}
    | Blocked => Blocked
    | Trap => Trap
    | OutOfFuel => OutOfFuel
    end, w'))
  /\
  move_construct guard =
  ({| wrappedLock := wrappedLock guard; isOwned := isOwned guard |},
   {| wrappedLock := None; isOwned := false |})
  /\
  destroy guard w =
  (if isOwned guard
   then match wrappedLock guard with
        | Some p => unlock p w
        | None => (Trap, w)
        end
   else (Done tt, w))
  /\
  destroy (snd (move_construct guard)) w = (Done tt, w)
  /\
  destroy (fst (move_construct guard)) w = destroy guard w
  /\
  destroy (fst (move_construct {| wrappedLock := Some l; isOwned := true |})) w
  = unlock l w.
Proof.
  split; [|split; [|split; [|split; [|split]]]].
  - unfold construct, bind, deref. simpl.
    destruct (lock l fuel w) as [[[]| | |] w']; reflexivity.
  - reflexivity.
  - unfold destroy, deref. destruct (isOwned guard), (wrappedLock guard); reflexivity.
  - reflexivity.
  - reflexivity.
  - reflexivity.
Qed.

End Facts.

(** Counting the calls on a recording lock: a guard that is constructed,
    moved and destroyed, source first, locks once and unlocks once. *)
Lemma Recorder_move_unlocks_once (l : nat) (fuel : nat)
      (w : World (list Recorder.Call) unit) :
  let run :=
    (g <- construct l fuel ;;
     destroy (snd (move_construct g)) ;;
     destroy (fst (move_construct g))) w in
  fst run = Done tt /\
  mem (snd run) = mem w ++ [Recorder.CallLock l; Recorder.CallUnlock l] /\
  Recorder.unlock_calls l (snd run) = S (Recorder.unlock_calls l w).
Proof.
  cbv zeta. unfold Recorder.unlock_calls. simpl.
  rewrite <- app_assoc. simpl. split; [reflexivity|]. split; [reflexivity|].
  rewrite filter_app, length_app. simpl. rewrite Nat.eqb_refl. simpl. lia.
Qed.

End LockGuardFacts.

(** * Further properties *)

(** ** Worlds with no other thread *)

Lemma seen_alone {Sh T} `{Word T} (w : World Sh (Event T)) :
  env w = [] -> seen w = mem w.
Proof. unfold seen. intros ->. reflexivity. Qed.

Lemma after_alone {Sh T} (w : World Sh (Event T)) m e :
  env w = [] -> env (after w m e) = [].
Proof. unfold after. simpl. intros ->. reflexivity. Qed.

Section WaitAlone.
Context {Sh T : Type} `{Word T}.

(** A timed wait on a word that holds the expected value, with no other
    thread to wake it, ends when its budget does. *)
Lemma wait_until_times_out (c : Cell Sh T) timeout (w : World Sh (Event T)) :
  env w = [] ->
  0 < remaining timeout ->
  remaining timeout <> UnlimitedTimeout ->
  wait_until c timeout (get c (mem w)) w =
  (Done {| remaining := 0 |},
   after w (mem w) (EvWait (cell_name c) (get c (mem w)) (get c (mem w)) (Some timeout))).
Proof.
  intros Q P U.
  unfold wait_until, futex_wait, bind, schedule, read, emit, ret, block, after.
  simpl. rewrite (seen_alone w Q), Q. simpl.
  assert (E : weqb (get c (mem w)) (get c (mem w)) = true) by (apply weqb_eq; reflexivity).
  rewrite E. apply Z.eqb_neq in U. rewrite U. simpl.
  unfold elapse. simpl. rewrite U. do 2 f_equal. f_equal.
  rewrite Z2N.id by lia. lia.
Qed.

(** The same wait with an unlimited budget never ends. *)
Lemma wait_until_sleeps (c : Cell Sh T) timeout (w : World Sh (Event T)) :
  env w = [] ->
  remaining timeout = UnlimitedTimeout ->
  wait_until c timeout (get c (mem w)) w =
  (Blocked,
   after w (mem w) (EvWait (cell_name c) (get c (mem w)) (get c (mem w)) (Some timeout))).
Proof.
  intros Q U.
  unfold wait_until, futex_wait, bind, schedule, read, emit, ret, block, after.
  simpl. rewrite (seen_alone w Q), Q. simpl.
  assert (E : weqb (get c (mem w)) (get c (mem w)) = true) by (apply weqb_eq; reflexivity).
  rewrite E, U, Z.eqb_refl. reflexivity.
Qed.

(** A wait on a word that does not hold the expected value returns at
    once and leaves the cursor alone. *)
Lemma wait_until_passes (c : Cell Sh T) timeout expected (w : World Sh (Event T)) :
  get c (seen w) <> expected ->
  wait_until c timeout expected w =
  (Done timeout,
   after w (seen w) (EvWait (cell_name c) expected (get c (seen w)) (Some timeout))).
Proof.
  intros D.
  unfold wait_until, futex_wait, bind, schedule, read, emit, ret, block, after.
  simpl.
  destruct (weqb (get c (seen w)) expected) eqn:E; [|reflexivity].
  apply weqb_eq in E. contradiction.
Qed.
End WaitAlone.

(** ** FlagLock, continued *)

Module FlagLockMore.
Import FlagLock FlagLockFacts.

Section More.
Variable DebugLocks : bool.

(** A turn of the loop on a word at [Locked], alone: the upgrade
    succeeds, the wait on [Locked] finds [LockedWithWaiters] and returns
    at once, the compare-and-set fails. *)
Lemma loop_turn_locked fuel timeout l :
  0 < remaining timeout ->
  try_lock_loop DebugLocks (S fuel) Locked timeout
    {| mem := {| flag_value := Locked |}; env := []; log := l |} =
  try_lock_loop DebugLocks fuel LockedWithWaiters timeout
    {| mem := {| flag_value := LockedWithWaiters |}; env := [];
       log := l ++ [EvCas "flag" Locked LockedWithWaiters Locked;
                    EvWait "flag" Locked LockedWithWaiters (Some timeout);
                    EvCas "flag" Unlocked LockedWithWaiters LockedWithWaiters] |}.
Proof.
  intros P. rewrite try_lock_loop_step.
  apply Z.gtb_lt in P. rewrite P.
  unfold bind, upgrade, pause. simpl.
  destruct DebugLocks; simpl; unfold seen; simpl; rewrite <- !app_assoc; reflexivity.
Qed.

(** A turn on a word at [LockedWithWaiters], alone, with a budget that
    can run out: the wait uses the budget up and the loop ends. *)
Lemma loop_turn_waiters_timed fuel timeout l :
  0 < remaining timeout ->
  remaining timeout <> UnlimitedTimeout ->
  try_lock_loop DebugLocks (S fuel) LockedWithWaiters timeout
    {| mem := {| flag_value := LockedWithWaiters |}; env := []; log := l |} =
  (Done (false, {| remaining := 0 |}),
   {| mem := {| flag_value := LockedWithWaiters |}; env := [];
      log := l ++ [EvWait "flag" LockedWithWaiters LockedWithWaiters (Some timeout);
                   EvCas "flag" Unlocked LockedWithWaiters LockedWithWaiters] |}).
Proof.
  intros P U. rewrite try_lock_loop_step.
  pose proof P as G. apply Z.gtb_lt in G. rewrite G.
  unfold bind, upgrade, pause. simpl.
  pose proof (wait_until_times_out flag timeout
                {| mem := {| flag_value := LockedWithWaiters |}; env := []; log := l |}
                eq_refl P U) as Wt.
  simpl in Wt. rewrite Wt.
  rewrite compare_exchange_strong_run. simpl.
  rewrite try_lock_loop_exhausted by (simpl; lia).
  unfold after, seen. simpl. rewrite <- !app_assoc. reflexivity.
Qed.

(** The same turn with the unlimited budget: the wait never ends. *)
Lemma loop_turn_waiters_unlimited fuel l :
  try_lock_loop DebugLocks (S fuel) LockedWithWaiters
    {| remaining := UnlimitedTimeout |}
    {| mem := {| flag_value := LockedWithWaiters |}; env := []; log := l |} =
  (Blocked,
   {| mem := {| flag_value := LockedWithWaiters |}; env := [];
      log := l ++ [EvWait "flag" LockedWithWaiters LockedWithWaiters
                     (Some {| remaining := UnlimitedTimeout |})] |}).
Proof.
  rewrite try_lock_loop_step. simpl.
  unfold bind, upgrade, pause. simpl.
  reflexivity.
Qed.

(** X1. On a held lock with no other thread, [try_lock] with a budget
    that is positive and not unlimited returns false with the budget used
    up, and leaves the word at [LockedWithWaiters] although nobody waits
    any more. *)
Theorem FlagLock_try_lock_times_out fuel timeout (w : World t (Event Flag)) :
  env w = [] ->
  flag_value (mem w) <> Unlocked ->
  0 < remaining timeout ->
  remaining timeout <> UnlimitedTimeout ->
  fst (try_lock DebugLocks (S (S fuel)) timeout w)
  = Done (false, {| remaining := 0 |}) /\
  mem (snd (try_lock DebugLocks (S (S fuel)) timeout w))
  = {| flag_value := LockedWithWaiters |} /\
  existsb is_wait (events_since w (snd (try_lock DebugLocks (S (S fuel)) timeout w)))
  = true.
Proof.
  destruct w as [[f] e l]. simpl. intros -> H P U.
  rewrite try_lock_run. unfold seen, after. cbn [env mem log flag_value tl app].
  destruct f; [congruence| |].
  - rewrite loop_turn_locked, loop_turn_waiters_timed by assumption.
    simpl. split; [reflexivity|]. split; [reflexivity|].
    erewrite events_since_app by (simpl; rewrite <- !app_assoc; reflexivity).
    reflexivity.
  - rewrite loop_turn_waiters_timed by assumption.
    simpl. split; [reflexivity|]. split; [reflexivity|].
    erewrite events_since_app by (simpl; rewrite <- !app_assoc; reflexivity).
    reflexivity.
Qed.

(** X2. [FlagLock] is not recursive: on a held lock with no other thread
    [lock()] never returns, and once it has had its turns it sleeps in
    the wait for ever. *)
Theorem FlagLock_lock_not_recursive fuel (w : World t (Event Flag)) :
  env w = [] ->
  flag_value (mem w) <> Unlocked ->
  fst (lock DebugLocks fuel w) <> Done tt /\
  fst (lock DebugLocks (S (S fuel)) w) = Blocked.
Proof.
  destruct w as [[f] e l]. simpl. intros -> H.
  assert (P : 0 < remaining {| remaining := UnlimitedTimeout |}) by reflexivity.
  unfold lock, bind. rewrite !try_lock_run. unfold seen, after.
  cbn [env mem log flag_value tl app].
  destruct f; [congruence| |].
  - split.
    + destruct fuel as [|[|fuel]]; [discriminate| |].
      * rewrite loop_turn_locked by exact P. discriminate.
      * rewrite loop_turn_locked, loop_turn_waiters_unlimited by exact P.
        discriminate.
    + rewrite loop_turn_locked, loop_turn_waiters_unlimited by exact P.
      reflexivity.
  - split.
    + destruct fuel as [|fuel]; [discriminate|].
      rewrite loop_turn_waiters_unlimited. discriminate.
    + rewrite loop_turn_waiters_unlimited. reflexivity.
Qed.

(** What the upgrade logs. *)
Lemma upgrade_protocol old (w : World t (Event Flag)) :
  old <> Unlocked ->
  exists old1 w1 evs,
    upgrade DebugLocks old w = (Done old1, w1) /\
    log w1 = log w ++ evs /\
    forallb protocol_event evs = true.
Proof.
  intros U. destruct old; [congruence| |].
  - unfold upgrade, Assert, bind. simpl. rewrite andb_false_r. simpl.
    rewrite compare_exchange_strong_run. simpl.
    destruct (flag_eqb (flag_value (seen w)) Locked);
      eexists _, _, [_]; (split; [reflexivity|]); split; reflexivity.
  - exists LockedWithWaiters, w, []. split; [reflexivity|].
    split; [symmetry; apply app_nil_r | reflexivity].
Qed.

(** What the wait of a turn logs, however it ends. *)
Lemma pause_protocol old timeout (w : World t (Event Flag)) :
  exists evs,
    log (snd (pause old timeout w)) = log w ++ evs /\
    forallb protocol_event evs = true.
Proof.
  unfold pause. destruct old; simpl.
  - exists []. split; [symmetry; apply app_nil_r | reflexivity].
  - rewrite wait_until_world. eexists [_]. split; reflexivity.
  - rewrite wait_until_world. eexists [_]. split; reflexivity.
Qed.

Lemma try_lock_loop_protocol fuel : forall old timeout (w : World t (Event Flag)),
  old <> Unlocked ->
  exists evs,
    log (snd (try_lock_loop DebugLocks fuel old timeout w)) = log w ++ evs /\
    forallb protocol_event evs = true.
Proof.
  induction fuel as [|fuel IH]; intros old timeout w U.
  - exists []. simpl. destruct (remaining timeout >? 0);
      (split; [symmetry; apply app_nil_r | reflexivity]).
  - rewrite try_lock_loop_step. destruct (remaining timeout >? 0).
    2: { exists []. split; [symmetry; apply app_nil_r | reflexivity]. }
    destruct (upgrade_protocol w U) as (old1 & w1 & e1 & E1 & L1 & F1).
    unfold bind at 1. rewrite E1.
    destruct (pause_protocol old1 timeout w1) as (e2 & L2 & F2).
    unfold bind at 1.
    destruct (pause old1 timeout w1) as [[timeout1| | |] w2]; simpl in L2.
    + unfold bind.
      destruct (acquire_cases w2) as [[_ C] | [V C]]; rewrite C.
      * exists (e1 ++ e2 ++ [EvCas "flag" Unlocked LockedWithWaiters Unlocked]).
        unfold after. simpl. rewrite L2, L1, <- !app_assoc. split; [reflexivity|].
        rewrite !forallb_app, F1, F2. reflexivity.
      * destruct (IH (flag_value (seen w2)) timeout1
                     (after w2 (seen w2)
                        (EvCas "flag" Unlocked LockedWithWaiters (flag_value (seen w2))))
                     V) as (e3 & L3 & F3).
        exists (e1 ++ e2 ++
                EvCas "flag" Unlocked LockedWithWaiters (flag_value (seen w2)) :: e3).
        rewrite L3. unfold after. simpl. rewrite L2, L1, <- !app_assoc.
        split; [reflexivity|].
        rewrite !forallb_app, F1, F2. simpl. exact F3.
    + exists (e1 ++ e2). simpl. rewrite L2, L1, <- app_assoc. split; [reflexivity|].
      rewrite forallb_app, F1, F2. reflexivity.
    + exists (e1 ++ e2). simpl. rewrite L2, L1, <- app_assoc. split; [reflexivity|].
      rewrite forallb_app, F1, F2. reflexivity.
    + exists (e1 ++ e2). simpl. rewrite L2, L1, <- app_assoc. split; [reflexivity|].
      rewrite forallb_app, F1, F2. reflexivity.
Qed.

(** X3. Whatever the other threads do and however the call ends,
    [try_lock] performs only the four operations of its text: it never
    exchanges or loads the word, never stores [Unlocked], upgrades only
    from [Locked], and waits only on [Locked] or [LockedWithWaiters], so
    that it cannot sleep on a word it finds [Unlocked]. *)
Theorem FlagLock_try_lock_protocol fuel timeout (w : World t (Event Flag)) :
  forallb protocol_event
          (events_since w (snd (try_lock DebugLocks fuel timeout w))) = true.
Proof.
  rewrite try_lock_run.
  destruct (flag_value (seen w)) eqn:S; cbv zeta.
  - simpl. rewrite events_since_after. reflexivity.
  - destruct (try_lock_loop_protocol fuel timeout
                (after w (seen w) (EvCas "flag" Unlocked Locked Locked))
                (old := Locked)) as (evs & L & F); [discriminate|].
    erewrite events_since_app
      by (rewrite L; unfold after; simpl; rewrite <- app_assoc; reflexivity).
    simpl. exact F.
  - destruct (try_lock_loop_protocol fuel timeout
                (after w (seen w) (EvCas "flag" Unlocked Locked LockedWithWaiters))
                (old := LockedWithWaiters)) as (evs & L & F); [discriminate|].
    erewrite events_since_app
      by (rewrite L; unfold after; simpl; rewrite <- app_assoc; reflexivity).
    simpl. exact F.
Qed.

(** X4. The assertion of line 72 holds in every run: with [DebugLocks]
    on or off, under every schedule, neither [try_lock(timeout)] nor
    [try_lock()] aborts. *)
Theorem FlagLock_try_lock_never_aborts fuel timeout (w : World t (Event Flag)) :
  fst (try_lock DebugLocks fuel timeout w) <> Trap /\
  fst (try_lock_now DebugLocks fuel w) <> Trap.
Proof.
  split; [apply try_lock_no_trap|].
  rewrite try_lock_now_run. destruct (flag_value (seen w)); discriminate.
Qed.

(** X5. [unlock()] aborts exactly when [DebugLocks] is on and the word
    was already [Unlocked]; on such a double unlock, aborted or not, the
    exchange is its only operation: no wake is issued. *)
Theorem FlagLock_double_unlock (w : World t (Event Flag)) :
  (fst (unlock DebugLocks w) = Trap <->
   DebugLocks = true /\ flag_value (seen w) = Unlocked)
  /\
  (flag_value (seen w) = Unlocked ->
   events_since w (snd (unlock DebugLocks w))
   = [EvExchange "flag" Unlocked Unlocked]).
Proof.
  rewrite flag_unlock_run. cbv zeta.
  destruct (flag_value (seen w)); simpl.
  - split.
    + destruct DebugLocks; simpl; split; try discriminate; auto.
      intros [E _]. discriminate.
    + intros _. apply events_since_after.
  - split; [|discriminate]. split; [discriminate | intros [_ E]; discriminate].
  - split; [|discriminate]. split; [discriminate | intros [_ E]; discriminate].
Qed.

(** X6. With no other thread, [unlock()] of a held lock leaves it free:
    the [try_lock()] that follows returns true and holds the lock at
    [Locked]. *)
Theorem FlagLock_unlock_then_acquirable fuel (w : World t (Event Flag)) :
  env w = [] ->
  flag_value (mem w) <> Unlocked ->
  fst ((unlock DebugLocks ;; try_lock_now DebugLocks fuel) w) = Done true /\
  mem (snd ((unlock DebugLocks ;; try_lock_now DebugLocks fuel) w))
  = {| flag_value := Locked |}.
Proof.
  destruct w as [[f] e l]. simpl. intros -> H.
  unfold bind. rewrite flag_unlock_run. unfold seen, after.
  cbn [env mem log flag_value tl].
  destruct f; [congruence| |]; rewrite try_lock_now_run; split; reflexivity.
Qed.

(** X17. A lock that was acquired in the loop is released with a wake:
    if [try_lock] returns true after finding the word held, and nobody
    touches the word before the release, [unlock()] finds
    [LockedWithWaiters] and wakes all waiters, so a waiter that went to
    sleep in between is not left behind. *)
Theorem FlagLock_slow_acquire_release_wakes
        fuel timeout (w : World t (Event Flag)) timeout' w' :
  flag_value (seen w) <> Unlocked ->
  try_lock DebugLocks fuel timeout w = (Done (true, timeout'), w') ->
  seen w' = mem w' ->
  fst (unlock DebugLocks w') = Done tt /\
  events_since w' (snd (unlock DebugLocks w'))
  = [EvExchange "flag" Unlocked LockedWithWaiters; EvNotifyAll "flag"].
Proof.
  intros U E Q. rewrite try_lock_run in E.
  assert (Hm : mem w' = {| flag_value := LockedWithWaiters |}).
  { destruct (flag_value (seen w)); [congruence| |];
      apply try_lock_loop_true in E as [Hm _]; exact Hm. }
  rewrite flag_unlock_run. cbv zeta. rewrite Q, Hm. simpl.
  split; [reflexivity|]. apply events_since_after2.
Qed.

End More.

Lemma FlagLock_slow_acquire_release_wakes_witness :
  events_since (snd (try_lock false 3 {| remaining := 5 |} released))
               (snd (unlock false
                       (snd (try_lock false 3 {| remaining := 5 |} released))))
  = [EvExchange "flag" Unlocked LockedWithWaiters; EvNotifyAll "flag"].
Proof.
  eapply (FlagLock_slow_acquire_release_wakes false 3 {| remaining := 5 |} released).
  - vm_compute. discriminate.
  - vm_compute. reflexivity.
  - reflexivity.
Defined.

Lemma FlagLock_try_lock_times_out_witness :
  fst (try_lock false 2 {| remaining := 5 |} held)
  = Done (false, {| remaining := 0 |}) /\
  mem (snd (try_lock false 2 {| remaining := 5 |} held))
  = {| flag_value := LockedWithWaiters |}.
Proof.
  destruct (FlagLock_try_lock_times_out false 0 {| remaining := 5 |} held)
    as (R & K & _).
  - reflexivity.
  - discriminate.
  - reflexivity.
  - vm_compute. discriminate.
  - split; [exact R | exact K].
Defined.

Lemma FlagLock_lock_not_recursive_witness :
  fst (lock false 2 held) = Blocked.
Proof.
  apply (FlagLock_lock_not_recursive false 0 held).
  - reflexivity.
  - discriminate.
Defined.

Lemma FlagLock_double_unlock_witness :
  events_since free (snd (unlock true free))
  = [EvExchange "flag" Unlocked Unlocked].
Proof.
  apply (FlagLock_double_unlock true free). reflexivity.
Defined.

Lemma FlagLock_unlock_then_acquirable_witness :
  fst ((unlock false ;; try_lock_now false 0) held) = Done true.
Proof.
  apply (FlagLock_unlock_then_acquirable false 0 held).
  - reflexivity.
  - discriminate.
Defined.

End FlagLockMore.

(** ** TicketLock, continued *)

Module TicketLockMore.
Import TicketLock TicketLockFacts.

(** X7. With no other thread, [lock()] returns exactly when the lock is
    free, that is when [current] equals [next] as the call finds them;
    otherwise it sleeps for ever.  Either way it has taken a ticket:
    [next] is incremented and [current] is as it was. *)
Theorem TicketLock_lock_returns_iff_free fuel (w : World t (Event Z)) :
  env w = [] ->
  fst (lock (S fuel) w)
  = (if current_value (mem w) =? next_value (mem w) then Done tt else Blocked) /\
  mem (snd (lock (S fuel) w))
  = {| current_value := current_value (mem w);
       next_value := wrap32 (next_value (mem w) + 1) |}.
Proof.
  destruct w as [[c n] e l]. simpl. intros ->.
  rewrite ticket_lock_run. cbv zeta. rewrite lock_loop_step. cbv zeta.
  unfold seen, after. cbn [env mem log tl current_value next_value set next].
  destruct (c =? n); [split; reflexivity|].
  unfold wait, futex_wait, bind, schedule, read, emit, ret, block, seen. simpl.
  rewrite Z.eqb_refl. split; reflexivity.
Qed.

(** X8. An acquisition and release of a free lock with no other thread
    returns after four atomic operations, none of them a wait or a wake,
    and leaves the lock free with both counters one further, also across
    the wrap of the counters. *)
Theorem TicketLock_uncontended_pair fuel (w : World t (Event Z)) :
  env w = [] ->
  current_value (mem w) = next_value (mem w) ->
  let c := current_value (mem w) in
  (lock (S fuel) ;; unlock) w =
  (Done tt,
   {| mem := {| current_value := wrap32 (c + 1); next_value := wrap32 (c + 1) |};
      env := [];
      log := log w ++ [EvFetchAdd "next" c (wrap32 (c + 1));
                       EvLoad "current" c;
                       EvFetchAdd "current" c (wrap32 (c + 1));
                       EvLoad "next" (wrap32 (c + 1))] |}).
Proof.
  destruct w as [[c n] e l]. simpl. intros -> <-.
  unfold bind. rewrite ticket_lock_run. cbv zeta. rewrite lock_loop_step. cbv zeta.
  unfold seen, after. cbn [env mem log tl current_value next_value set next].
  rewrite Z.eqb_refl, ticket_unlock_run. cbv zeta.
  unfold seen, after. cbn [env mem log tl current_value next_value set current fst snd].
  assert (G : (wrap32 (c + 1) >? wrap32 (c + 1)) = false)
    by (rewrite Z.gtb_ltb; apply Z.ltb_irrefl).
  rewrite G, <- !app_assoc. reflexivity.
Qed.

(** The ticket of a call is the value of [next] it finds. *)
Lemma ticket_of_next (o : t) : ticket_of o = Some (next_value o).
Proof.
  unfold ticket_of. rewrite ticket_lock_run. cbv zeta.
  match goal with
  | |- context [lock_loop ?f ?k ?w] =>
      destruct (lock_loop_rounds f k w) as (rounds & fin & L & _)
  end.
  rewrite L. reflexivity.
Qed.

Lemma locks_cons_lock (calls : list Call) :
  locks (CallLock :: calls) = S (locks calls).
Proof. reflexivity. Qed.

Lemma locks_cons_unlock (calls : list Call) :
  locks (CallUnlock :: calls) = locks calls.
Proof. reflexivity. Qed.

Lemma tickets_counts (calls : list Call) : forall c n,
  tickets calls {| current_value := wrap32 c; next_value := wrap32 n |} =
  map (fun k => wrap32 (n + Z.of_nat k)) (seq 0 (locks calls)).
Proof.
  induction calls as [|call calls IH]; intros c n.
  - reflexivity.
  - cbn [tickets]. rewrite ticket_of_next. destruct call.
    + rewrite run_call_lock. cbn [current_value next_value].
      rewrite wrap32_idem, IH, locks_cons_lock. cbn [seq map app].
      rewrite Z.add_0_r. f_equal.
      rewrite <- seq_shift, map_map. apply map_ext. intros k.
      f_equal. lia.
    + rewrite run_call_unlock. cbn [current_value next_value].
      rewrite wrap32_idem, IH, locks_cons_unlock. reflexivity.
Qed.

(** Consecutive naturals stay distinct as integers. *)
Lemma tickets_unwrapped_distinct (len : nat) : forall start,
  NoDup (map Z.of_nat (seq start len)).
Proof.
  induction len as [|len IH]; intros start; simpl; constructor.
  - rewrite in_map_iff. intros (k & E & K). apply in_seq in K. lia.
  - apply IH.
Qed.

(** X9. Tickets are handed out in the order of the calls: from the
    zero-initialised lock the calls of [lock()] of any history take the
    tickets 0, 1, 2, ... modulo [2^32], whatever calls of [unlock()] come
    between them; up to [2^32] calls of [lock()] no ticket is taken
    twice. *)
Theorem TicketLock_tickets_in_order (calls : list Call) :
  tickets calls init
  = map (fun k => wrap32 (Z.of_nat k)) (seq 0 (locks calls)) /\
  (Z.of_nat (locks calls) <= 2 ^ 32 -> NoDup (tickets calls init)).
Proof.
  assert (E : tickets calls init
              = map (fun k => wrap32 (Z.of_nat k)) (seq 0 (locks calls))).
  { change init with {| current_value := wrap32 0; next_value := wrap32 0 |}.
    rewrite tickets_counts. apply map_ext. intros k. reflexivity. }
  split; [exact E|]. intros B. rewrite E.
  rewrite (map_ext_in _ Z.of_nat).
  - apply tickets_unwrapped_distinct.
  - intros k K. apply in_seq in K. apply wrap32_small. lia.
Qed.

(** X10. The counters count the calls modulo [2^32] in every history,
    paired or not, wrapped or not: [current] is the number of calls of
    [unlock()], [next] the number of calls of [lock()], and their
    difference modulo [2^32] the difference of the two numbers. *)
Theorem TicketLock_history_counts (calls : list Call) :
  run_calls calls init =
  {| current_value := wrap32 (Z.of_nat (unlocks calls));
     next_value := wrap32 (Z.of_nat (locks calls)) |} /\
  outstanding (run_calls calls init)
  = wrap32 (Z.of_nat (locks calls) - Z.of_nat (unlocks calls)).
Proof.
  change init with {| current_value := wrap32 0; next_value := wrap32 0 |}.
  rewrite run_calls_counts. simpl. split; [reflexivity|].
  unfold outstanding, wrap32. simpl. symmetry. apply Zminus_mod.
Qed.

(** X11. Once [next] has wrapped below [current], [unlock()] increments
    [current] and issues no wake although tickets are outstanding: the
    comparison
    [next > currentSnapshot] of line 173 is one of unsigned numbers. *)
Theorem TicketLock_wake_lost_after_wrap (w : World t (Event Z)) :
  env w = [] ->
  0 <= next_value (mem w) < current_value (mem w) ->
  current_value (mem w) + 1 < 2 ^ 32 ->
  fst (unlock w) = Done tt /\
  existsb is_notify (events_since w (snd (unlock w))) = false /\
  outstanding (mem (snd (unlock w))) > 0 /\
  mem (snd (unlock w))
  = {| current_value := current_value (mem w) + 1;
       next_value := next_value (mem w) |}.
Proof.
  destruct w as [[c n] e l]. cbn [mem env current_value next_value].
  intros -> Hn Hc.
  rewrite ticket_unlock_run. cbv zeta.
  unfold seen, after. cbn [env mem log tl current_value next_value set current fst snd].
  rewrite (wrap32_small (z := c + 1)) by lia.
  assert (G : (n >? c + 1) = false) by (rewrite Z.gtb_ltb; apply Z.ltb_ge; lia).
  rewrite G. split; [reflexivity|]. split.
  - erewrite events_since_app by (simpl; rewrite <- !app_assoc; reflexivity).
    reflexivity.
  - split; [|reflexivity]. unfold outstanding, wrap32. simpl.
    replace (n - (c + 1)) with (n - (c + 1) + 2 ^ 32 + (-1) * 2 ^ 32) by lia.
    rewrite Z.mod_add by lia. rewrite Z.mod_small by lia. lia.
Qed.

Lemma TicketLock_lock_returns_iff_free_witness :
  fst (lock 1 {| mem := {| current_value := 3; next_value := 5 |};
                 env := []; log := [] |}) = Blocked /\
  fst (lock 1 {| mem := {| current_value := 5; next_value := 5 |};
                 env := []; log := [] |}) = Done tt.
Proof.
  split.
  - apply (TicketLock_lock_returns_iff_free 0
             {| mem := {| current_value := 3; next_value := 5 |};
                env := []; log := [] |}). reflexivity.
  - apply (TicketLock_lock_returns_iff_free 0
             {| mem := {| current_value := 5; next_value := 5 |};
                env := []; log := [] |}). reflexivity.
Defined.

Lemma TicketLock_uncontended_pair_witness :
  mem (snd ((lock 1 ;; unlock)
              {| mem := {| current_value := 2 ^ 32 - 1; next_value := 2 ^ 32 - 1 |};
                 env := []; log := [] |}))
  = {| current_value := 0; next_value := 0 |}.
Proof.
  rewrite (TicketLock_uncontended_pair 0
             {| mem := {| current_value := 2 ^ 32 - 1; next_value := 2 ^ 32 - 1 |};
                env := []; log := [] |} eq_refl eq_refl).
  reflexivity.
Defined.

Lemma TicketLock_tickets_in_order_witness :
  NoDup (tickets [CallLock; CallUnlock; CallLock; CallLock] init).
Proof.
  apply (TicketLock_tickets_in_order [CallLock; CallUnlock; CallLock; CallLock]).
  vm_compute. discriminate.
Defined.

(** The state of the witness is reached by a paired history: [2^32 - 2]
    uncontended acquisitions and releases, then a [lock()] that takes
    the lock and a [lock()] that waits with ticket [2^32 - 1]. *)
Lemma TicketLock_wake_lost_after_wrap_witness :
  run_calls [CallLock; CallLock] (serve (2 ^ 32 - 2) init)
  = {| current_value := 2 ^ 32 - 2; next_value := 0 |} /\
  existsb is_notify
    (events_since
       {| mem := {| current_value := 2 ^ 32 - 2; next_value := 0 |};
          env := []; log := [] |}
       (snd (unlock {| mem := {| current_value := 2 ^ 32 - 2; next_value := 0 |};
                       env := []; log := [] |}))) = false.
Proof.
  split.
  - rewrite serve_counts. unfold run_calls. simpl fold_left.
    rewrite !run_call_lock. reflexivity.
  - apply (TicketLock_wake_lost_after_wrap
             {| mem := {| current_value := 2 ^ 32 - 2; next_value := 0 |};
                env := []; log := [] |}).
    + reflexivity.
    + simpl. lia.
    + simpl. lia.
Defined.

End TicketLockMore.

(** ** LockGuard, continued *)

Module LockGuardMore.
Import LockGuard.

Section More.
Context {Lock Sh Ev : Type} `{HL : Lockable Lock Sh Ev}.
Variable DebugLocks : bool.

(** X12. The explicit methods keep the flag in step with the lock: a
    guard that is unlocked by hand and then destroyed calls [unlock()]
    once, not twice; one that is locked by hand and then destroyed calls
    [lock()] and then [unlock()]; and a guard constructed, unlocked,
    locked again and destroyed makes exactly the calls lock, unlock,
    lock, unlock. *)
Theorem LockGuard_explicit_calls_balance (l : Lock) (fuel : nat) (w : World Sh Ev) :
  (g <- guard_unlock DebugLocks {| wrappedLock := Some l; isOwned := true |} ;;
   destroy g) w
  = unlock l w
  /\
  (g <- guard_lock DebugLocks {| wrappedLock := Some l; isOwned := false |} fuel ;;
   destroy g) w
  = (lock l fuel ;; unlock l) w
  /\
  (g <- construct l fuel ;;
   g1 <- guard_unlock DebugLocks g ;;
   g2 <- guard_lock DebugLocks g1 fuel ;;
   destroy g2) w
  = (lock l fuel ;; unlock l ;; lock l fuel ;; unlock l) w.
Proof.
  split; [|split].
  - unfold guard_unlock, destroy, deref, Assert, bind. simpl.
    rewrite andb_false_r. unfold ret.
    destruct (unlock l w) as [[[]| | |] w']; reflexivity.
  - unfold guard_lock, destroy, deref, Assert, bind. simpl.
    rewrite andb_false_r. unfold ret.
    destruct (lock l fuel w) as [[[]| | |] w']; reflexivity.
  - unfold construct, guard_unlock, guard_lock, destroy, deref, Assert, bind. simpl.
    destruct (lock l fuel w) as [[[]| | |] w1]; try reflexivity. simpl.
    rewrite andb_false_r. unfold ret.
    destruct (unlock l w1) as [[[]| | |] w2]; try reflexivity. simpl.
    rewrite andb_false_r.
    destruct (lock l fuel w2) as [[[]| | |] w3]; reflexivity.
Qed.

(** X13. The guard never owns through a null reference: every guard a
    constructor or a method returns is well formed, a move keeps both
    guards well formed, and the destructor of a well-formed guard either
    does nothing or is the [unlock()] of the lock it refers to: it never
    uses a null reference. *)
Theorem LockGuard_never_owns_null
        (l : Lock) (g : t Lock) (fuel : nat) (w : World Sh Ev) :
  (forall g' w', construct l fuel w = (Done g', w') -> well_formed g' = true)
  /\
  (forall g' w', guard_lock DebugLocks g fuel w = (Done g', w') ->
                 well_formed g' = true)
  /\
  (forall g' w', guard_unlock DebugLocks g w = (Done g', w') ->
                 well_formed g' = true)
  /\
  (well_formed g = true ->
   well_formed (fst (move_construct g)) = true /\
   well_formed (snd (move_construct g)) = true /\
   (destroy g w = (Done tt, w) \/
    exists p, wrappedLock g = Some p /\ destroy g w = unlock p w)).
Proof.
  split; [|split; [|split]].
  - intros g' w' E. apply bind_done in E as (u & w1 & _ & E).
    injection E as <- _. reflexivity.
  - intros g' w' E. apply bind_done in E as (u & w1 & _ & E).
    apply bind_done in E as (u2 & w2 & E2 & E). injection E as <- _.
    unfold deref in E2. destruct (wrappedLock g); [reflexivity | discriminate].
  - intros g' w' E. apply bind_done in E as (u & w1 & _ & E).
    apply bind_done in E as (u2 & w2 & _ & E). injection E as <- _. reflexivity.
  - intros F. split; [exact F|]. split; [reflexivity|].
    unfold well_formed in F. unfold destroy, deref.
    destruct (isOwned g); [|left; reflexivity].
    destruct (wrappedLock g) as [p|]; [|discriminate].
    right. exists p. split; reflexivity.
Qed.

(** X14. What the contract checks do.  With [DebugLocks] on, [lock()] on
    a guard that owns and [unlock()] on a guard that does not own abort
    before the lock is touched; with it off the call goes through to the
    lock, a second [lock()] or a second [unlock()].  On a moved-from
    guard both methods fail on the null reference in either build, and
    the lock is not touched. *)
Theorem LockGuard_contract_checks (l : Lock) (fuel : nat) (w : World Sh Ev) :
  guard_lock true {| wrappedLock := Some l; isOwned := true |} fuel w = (Trap, w)
  /\
  guard_unlock true {| wrappedLock := Some l; isOwned := false |} w = (Trap, w)
  /\
  (g <- guard_lock false {| wrappedLock := Some l; isOwned := true |} fuel ;;
   destroy g) w
  = (lock l fuel ;; unlock l) w
  /\
  (g <- guard_unlock false {| wrappedLock := Some l; isOwned := false |} ;;
   destroy g) w
  = unlock l w
  /\
  guard_lock DebugLocks (snd (move_construct {| wrappedLock := Some l;
                                                isOwned := true |})) fuel w
  = (Trap, w)
  /\
  guard_unlock DebugLocks (snd (move_construct {| wrappedLock := Some l;
                                                  isOwned := true |})) w
  = (Trap, w).
Proof.
  split; [reflexivity|]. split; [reflexivity|]. split; [|split; [|split]].
  - unfold guard_lock, destroy, deref, Assert, bind. simpl. unfold ret.
    destruct (lock l fuel w) as [[[]| | |] w']; reflexivity.
  - unfold guard_unlock, destroy, deref, Assert, bind. simpl. unfold ret.
    destruct (unlock l w) as [[[]| | |] w']; reflexivity.
  - unfold guard_lock, Assert, bind. simpl. rewrite andb_false_r. reflexivity.
  - unfold guard_unlock, Assert, bind. simpl. destruct DebugLocks; reflexivity.
Qed.

(** X15. [try_lock(timeout)] of a guard sets the flag to what the lock
    answers: the guard returned owns exactly when the lock was acquired,
    so that destroying it releases the lock after a success and touches
    nothing after a failure. *)
Theorem LockGuard_try_lock_ownership `{HT : !TryLockable Lock Sh Ev}
        (l : Lock) (fuel : nat) (timeout : Timeout) (w : World Sh Ev) :
  (forall acquired timeout' g' w',
     guard_try_lock DebugLocks {| wrappedLock := Some l; isOwned := false |}
                    fuel timeout w
     = (Done (acquired, timeout', g'), w') ->
     try_lock l fuel timeout w = (Done (acquired, timeout'), w') /\
     g' = {| wrappedLock := Some l; isOwned := acquired |})
  /\
  (r <- guard_try_lock DebugLocks {| wrappedLock := Some l; isOwned := false |}
                       fuel timeout ;;
   destroy (snd r)) w
  = ('(acquired, _) <- try_lock l fuel timeout ;;
     if acquired then unlock l else ret tt) w.
Proof.
  split.
  - intros acquired timeout' g' w' E.
    unfold guard_try_lock, deref, Assert, bind in E. simpl in E.
    rewrite andb_false_r in E. unfold ret in E.
    destruct (try_lock l fuel timeout w) as [[[a c]| | |] w1]; try discriminate.
    injection E as <- <- <- <-. split; reflexivity.
  - unfold guard_try_lock, destroy, deref, Assert, bind. simpl.
    rewrite andb_false_r. unfold ret.
    destruct (try_lock l fuel timeout w) as [[[[] c]| | |] w1]; reflexivity.
Qed.

End More.

Section OverFlagLock.
Import FlagLockFacts.
Variable DebugLocks : bool.

(** X16. A guard over a [FlagLock].  With no other thread, a scope that
    constructs a guard over a free lock and destroys it returns after a
    compare-and-set and an exchange, with no wait and no wake, and
    leaves the lock free.  Under any schedule, a guard whose
    [try_lock] with a budget of zero finds the lock held does not own,
    and destroying it stores nothing: the holder keeps the lock. *)
Theorem LockGuard_FlagLock_scope (fuel : nat)
        (w : World FlagLock.t (Event FlagLock.Flag)) :
  (env w = [] ->
   FlagLock.flag_value (mem w) = FlagLock.Unlocked ->
   (g <- construct (HL := Lockable_FlagLock DebugLocks) This fuel ;;
    destroy (HL := Lockable_FlagLock DebugLocks) g) w
   = (Done tt,
      {| mem := {| FlagLock.flag_value := FlagLock.Unlocked |}; env := [];
         log := log w ++ [EvCas "flag" FlagLock.Unlocked FlagLock.Locked
                                FlagLock.Unlocked;
                          EvExchange "flag" FlagLock.Unlocked FlagLock.Locked] |}))
  /\
  (FlagLock.flag_value (seen w) <> FlagLock.Unlocked ->
   (r <- guard_try_lock (HT := TryLockable_FlagLock DebugLocks) DebugLocks
           {| wrappedLock := Some This; isOwned := false |}
           fuel {| remaining := 0 |} ;;
    destroy (HL := Lockable_FlagLock DebugLocks) (snd r)) w
   = (Done tt,
      after w (seen w)
            (EvCas "flag" FlagLock.Unlocked FlagLock.Locked
                   (FlagLock.flag_value (seen w))))).
Proof.
  split.
  - destruct w as [[f] e l]. simpl. intros -> ->.
    unfold construct, destroy, deref, bind.
    cbn [wrappedLock isOwned lock unlock Lockable_FlagLock].
    unfold FlagLock.lock, bind. rewrite try_lock_run.
    unfold seen, after. cbn [env mem log FlagLock.flag_value tl ret wrappedLock isOwned].
    rewrite flag_unlock_run. cbv zeta.
    unfold seen, after. cbn [env mem log FlagLock.flag_value tl].
    rewrite <- app_assoc. reflexivity.
  - intros U.
    unfold guard_try_lock, destroy, deref, Assert, bind.
    cbn [wrappedLock isOwned try_lock unlock TryLockable_FlagLock
         Lockable_FlagLock negb].
    rewrite andb_false_r. unfold ret. cbv beta iota. rewrite try_lock_run.
    destruct (FlagLock.flag_value (seen w)); [congruence| |]; cbv zeta;
      rewrite try_lock_loop_exhausted by (simpl; lia); reflexivity.
Qed.

End OverFlagLock.

Lemma LockGuard_never_owns_null_witness :
  well_formed (fst (move_construct
                      {| wrappedLock := Some 7%nat; isOwned := true |})) = true.
Proof.
  apply (LockGuard_never_owns_null (HL := Recorder.Lockable_Recorder) false 7%nat
           {| wrappedLock := Some 7%nat; isOwned := true |} 0
           {| mem := []; env := []; log := [] |}).
  reflexivity.
Defined.

Lemma LockGuard_try_lock_ownership_witness :
  try_lock (TryLockable := TryLockable_FlagLock false) This 0
           {| remaining := 0 |} FlagLock.held
  = (Done (false, {| remaining := 0 |}),
     snd (FlagLock.try_lock false 0 {| remaining := 0 |} FlagLock.held))
  /\
  {| wrappedLock := Some This; isOwned := false |}
  = {| wrappedLock := Some This; isOwned := false |}.
Proof.
  apply (proj1 (LockGuard_try_lock_ownership
                  (HT := TryLockable_FlagLock false) false This 0
                  {| remaining := 0 |} FlagLock.held)
               false {| remaining := 0 |}
               {| wrappedLock := Some This; isOwned := false |}
               (snd (FlagLock.try_lock false 0 {| remaining := 0 |} FlagLock.held))).
  vm_compute. reflexivity.
Defined.

Lemma LockGuard_FlagLock_scope_witness :
  fst ((g <- construct (HL := Lockable_FlagLock false) This 0 ;;
        destroy (HL := Lockable_FlagLock false) g) FlagLock.free) = Done tt.
Proof.
  rewrite (proj1 (LockGuard_FlagLock_scope false 0 FlagLock.free) eq_refl eq_refl).
  reflexivity.
Defined.

End LockGuardMore.
